(** * watchman: a polling file watcher (pkg/watchman/watchman.go)

    A shallow embedding of the Go package [watchman] and the properties of
    its registry, its scan pass and its constructors.

    Conventions of the embedding.
    - A [*File] is an address [ptr] into an explicit heap ([gmap ptr File]);
      an address outside the heap's domain stands for a nil pointer.
    - A run-time panic (nil dereference, call of a nil function value) is the
      [None] of the [option] monad.
    - The file system is outside the program: every [os.Stat] and [os.Open]
      is answered by an oracle [FS]; a scan pass is given one oracle per
      visited registry slot, so the file system may change in mid-pass.
    - A send on [errChan] or [eventChan] is an entry of the output trace of
      the pass, in program order (the receiver is assumed to take it). *)

From Stdlib Require Import ZArith Strings.Byte.
From stdpp Require Import base option list gmap strings.

Open Scope Z_scope.

(** ** Data model *)

#[global] Instance byte_eq_dec : EqDecision Byte.byte := Byte.byte_eq_dec.

(** [type FileData []byte].  A nil slice and an empty slice are both [[]]:
    the only observation the package makes of a [FileData] is [bytes.Equal],
    which does not tell them apart. *)
Definition FileData : Type := list Byte.byte.

(** [syscall.Errno] as its number. *)
Definition Errno : Type := nat.
Definition ENOENT : Errno := 2%nat.
Definition EIO : Errno := 5%nat.
Definition EACCES : Errno := 13%nat.

(** Values of Go's [error] interface that reach this package: the three
    package-level sentinels made by [errors.New], the [*os.PathError] that
    [os.Stat] and [os.Open] document as the type of every error they return,
    and any other error a reader may produce. *)
Inductive error : Type :=
  | ErrInvalidFd
  | ErrInvalidFile
  | ErrInvalidDuration
  | PathError (op : string) (path : string) (errno : Errno)
  | OtherError (msg : string).

#[global] Instance error_eq_dec : EqDecision error.
Proof. solve_decision. Defined.

(** What reading an open [*os.File] to its end gives: [ioutil.ReadAll]
    returns the bytes read and the error that stopped it, if any. *)
Record os_File : Type := mk_os_File {
  file_bytes : list Byte.byte;
  file_readErr : option error
}.

Definition ioutil_ReadAll (f : os_File) : list Byte.byte * option error :=
  (file_bytes f, file_readErr f).

(** The file system at one instant: the outcome of [stat] and of [open] on
    each path.  The two are independent, as on a real system (a file may be
    stat-able and not readable, or vanish between the two calls). *)
Record FS : Type := mk_FS {
  fs_stat : string -> option Errno;
  fs_open : string -> Errno + os_File
}.

(** [os.Stat]: only the error is used by the package. *)
Definition os_Stat (fs : FS) (name : string) : option error :=
  match fs_stat fs name with
  | Some errno => Some (PathError "stat" name errno)
  | None => None
  end.

(** [os.Open]. *)
Definition os_Open (fs : FS) (name : string) : error + os_File :=
  match fs_open fs name with
  | inl errno => inl (PathError "open" name errno)
  | inr f => inr f
  end.

(** [type FileReader func(file *os.File) (FileData, error)]. *)
Definition FileReader : Type := os_File -> FileData * option error.

(** [type File struct]; [reader] is [None] for a nil function value. *)
Record File : Type := mk_File {
  fileName : string;
  fileData : FileData;
  reader : option FileReader;
  tag : string
}.

(** The zero value [File{}]. *)
Definition File_zero : File :=
  {| fileName := ""; fileData := []; reader := None; tag := "" |}.

(** The address of a [File] on the heap; [f == file] on two [*File] is
    equality of addresses. *)
Definition ptr : Type := nat.

(** [type Event struct { files []*File }]. *)
Record Event : Type := mk_Event { ev_files : list ptr }.

(** [type Watchman struct].  The ticker and the three channels carry no data
    of their own: the ticks are the list of oracles given to [run], the sends
    are the output trace. *)
Record Watchman : Type := mk_Watchman {
  files : list ptr;
  pollInterval : Z
}.

Definition Watchman_zero : Watchman := {| files := []; pollInterval := 0 |}.

(** [time.Second], in nanoseconds. *)
Definition time_Second : Z := 1000000000.

(** [type NewOpt func(w *Watchman) error] and
    [type NewFileOpt func(f *File) error]: the option updates the object it
    is handed and returns an error or nil. *)
Definition NewOpt : Type := Watchman -> Watchman * option error.
Definition NewFileOpt : Type := File -> File * option error.

(** [type FileFilter func(f *File) bool]: the filter sees the pointer and
    whatever it reads through it. *)
Definition FileFilter : Type := gmap ptr File -> ptr -> bool.

(** ** Readers *)

Definition ReadFile : FileReader := fun f =>
  match ioutil_ReadAll f with
  | (_, Some err) => ([], Some err)
  | (data, None) => (data, None)
  end.

Section Digest.

(** [md5.Sum], from crypto/md5, is taken as given. *)
Variable md5_Sum : list Byte.byte -> list Byte.byte.

Definition MD5Checksum : FileReader := fun f =>
  match ioutil_ReadAll f with
  | (_, Some err) => ([], Some err)
  | (data, None) =>
      let checksum := md5_Sum data in (checksum, None)
  end.

End Digest.

(** [bytes.Equal]. *)
Definition bytes_Equal (a b : FileData) : bool := bool_decide (a = b).

(** ** Constructors and options *)

Definition WithPollInterval (duration : Z) : NewOpt := fun w =>
  if duration =? 0 then (w, Some ErrInvalidDuration)
  else ({| files := files w; pollInterval := duration |}, None).

Definition WithReader (rd : option FileReader) : NewFileOpt := fun f =>
  ({| fileName := fileName f; fileData := fileData f;
      reader := rd; tag := tag f |}, None).

Definition WithTag (t : string) : NewFileOpt := fun f =>
  ({| fileName := fileName f; fileData := fileData f;
      reader := reader f; tag := t |}, None).

(** The loop of [New]: each option is applied and its result dropped. *)
Fixpoint New_apply (opts : list NewOpt) (w : Watchman) : Watchman :=
  match opts with
  | [] => w
  | opt :: rest => New_apply rest (fst (opt w))
  end.

Definition New (opts : list NewOpt) : Watchman :=
  let w := New_apply opts Watchman_zero in
  if pollInterval w =? 0
  then {| files := files w; pollInterval := 10 * time_Second |}
  else w.

(** The loop of [NewFile]: the first option that returns an error ends
    construction with that error. *)
Fixpoint NewFile_apply (opts : list NewFileOpt) (f : File) : error + File :=
  match opts with
  | [] => inr f
  | opt :: rest =>
      match opt f with
      | (_, Some err) => inl err
      | (f', None) => NewFile_apply rest f'
      end
  end.

Definition set_fileData (f : File) (data : FileData) : File :=
  {| fileName := fileName f; fileData := data;
     reader := reader f; tag := tag f |}.

Definition set_tag (f : File) (t : string) : File :=
  {| fileName := fileName f; fileData := fileData f;
     reader := reader f; tag := t |}.

(** [NewFile] up to the [return]: the [File] built, or the error. *)
Definition NewFile_build (fs : FS) (name : string) (opts : list NewFileOpt)
  : error + File :=
  match os_Stat fs name with
  | Some err => inl err
  | None =>
      let f := {| fileName := name; fileData := fileData File_zero;
                  reader := reader File_zero; tag := tag File_zero |} in
      match NewFile_apply opts f with
      | inl err => inl err
      | inr f =>
          let rd := match reader f with Some r => r | None => ReadFile end in
          let f := {| fileName := fileName f; fileData := fileData f;
                      reader := Some rd; tag := tag f |} in
          match os_Open fs (fileName f) with
          | inl err => inl err
          | inr openFile =>
              match rd openFile with
              | (_, Some err) => inl err
              | (data, None) => inr (set_fileData f data)
              end
          end
      end
  end.

(** [NewFile]: [return &f, nil] puts the new [File] at a fresh address;
    [return nil, err] leaves the heap as it was. *)
Definition NewFile (fs : FS) (h : gmap ptr File) (name : string)
    (opts : list NewFileOpt) : (option ptr * option error) * gmap ptr File :=
  match NewFile_build fs name opts with
  | inl err => ((None, Some err), h)
  | inr f => let p := fresh (dom h) in ((Some p, None), <[p := f]> h)
  end.

(** ** Registry *)

(** [AddFile]; its returned error is always nil. *)
Definition AddFile (w : Watchman) (file : ptr) : Watchman * option error :=
  ({| files := files w ++ [file]; pollInterval := pollInterval w |}, None).

(** The [range] loop of [RemoveFile] over the slots from [idx] on: at the
    first slot that holds [file], that slot takes the last element of
    [w.files] and the slice loses its last slot.  The loop has found an
    element there, so the slice is not empty and its last slot exists; the
    [None] branch is never taken. *)
Fixpoint RemoveFile_range (all : list ptr) (idx : nat) (rest : list ptr)
    (file : ptr) : list ptr :=
  match rest with
  | [] => all
  | f :: rest' =>
      if decide (f = file)
      then match all !! (length all - 1)%nat with
           | Some lastFile => take (length all - 1) (<[idx := lastFile]> all)
           | None => all
           end
      else RemoveFile_range all (S idx) rest' file
  end.

Definition RemoveFile (w : Watchman) (file : ptr) : Watchman :=
  {| files := RemoveFile_range (files w) 0 (files w) file;
     pollInterval := pollInterval w |}.

Definition Find (w : Watchman) (h : gmap ptr File) (flt : FileFilter)
  : list ptr :=
  List.filter (flt h) (files w).

(** [SetTag] and [GetTag] dereference their receiver. *)
Definition SetTag (h : gmap ptr File) (f : ptr) (t : string)
  : option (gmap ptr File) :=
  file ← h !! f; Some (<[f := set_tag file t]> h).

Definition GetTag (h : gmap ptr File) (f : ptr) : option string :=
  file ← h !! f; Some (tag file).

Definition Files (e : Event) : list ptr := ev_files e.

(** ** The scan pass *)

(** A value handed to one of the two channels. *)
Inductive send : Type :=
  | OnErrChan (err : error)
  | OnEventChan (ev : Event).

(** State of [publishChanges] inside its loop: the heap, the local
    [event], and what has been sent so far. *)
Record Scan : Type := mk_Scan {
  sc_heap : gmap ptr File;
  sc_event : Event;
  sc_sent : list send
}.

Definition sendErr (s : Scan) (err : error) : Scan :=
  {| sc_heap := sc_heap s; sc_event := sc_event s;
     sc_sent := sc_sent s ++ [OnErrChan err] |}.

(** The body of the loop of [publishChanges] for the slot holding [f]. *)
Definition scanFile (fs : FS) (f : ptr) (s : Scan) : option Scan :=
  file ← sc_heap s !! f;
  match os_Open fs (fileName file) with
  | inl err => Some (sendErr s err)
  | inr openFile =>
      rd ← reader file;
      match rd openFile with
      | (_, Some err) => Some (sendErr s err)
      | (data, None) =>
          if negb (bytes_Equal data (fileData file))
          then Some {| sc_heap := <[f := set_fileData file data]> (sc_heap s);
                       sc_event := mk_Event (ev_files (sc_event s) ++ [f]);
                       sc_sent := sc_sent s |}
          else Some s
      end
  end.

(** The file system as the pass meets it: [wd i] answers the calls made for
    slot [i] of the registry. *)
Definition World : Type := nat -> FS.

Definition constWorld (fs : FS) : World := fun _ => fs.

Fixpoint scan (wd : World) (i : nat) (fl : list ptr) (s : Scan)
  : option Scan :=
  match fl with
  | [] => Some s
  | f :: rest => s' ← scanFile (wd i) f s; scan wd (S i) rest s'
  end.

Definition publishChanges (wd : World) (w : Watchman) (h : gmap ptr File)
  : option (gmap ptr File * list send) :=
  s ← scan wd 0 (files w)
         {| sc_heap := h; sc_event := mk_Event []; sc_sent := [] |};
  Some (sc_heap s,
        if (0 <? length (ev_files (sc_event s)))%nat
        then sc_sent s ++ [OnEventChan (sc_event s)]
        else sc_sent s).

(** The goroutine of [Start]: one [publishChanges] per tick, for the ticks
    that arrive before the stop signal. *)
Fixpoint run (ticks : list World) (w : Watchman) (h : gmap ptr File)
  : option (gmap ptr File * list send) :=
  match ticks with
  | [] => Some (h, [])
  | wd :: rest =>
      '(h1, sent1) ← publishChanges wd w h;
      '(h2, sent2) ← run rest w h1;
      Some (h2, sent1 ++ sent2)
  end.

(** ** Vocabulary of the statements *)

(** What opening and reading [file] under [fs] comes to; [None] when the
    reader is nil and would be called. *)
Inductive outcome : Type :=
  | Failed (err : error)
  | Read (data : FileData).

Definition observe (fs : FS) (file : File) : option outcome :=
  match os_Open fs (fileName file) with
  | inl err => Some (Failed err)
  | inr openFile =>
      rd ← reader file;
      match rd openFile with
      | (_, Some err) => Some (Failed err)
      | (data, None) => Some (Read data)
      end
  end.

(** [p] is in the file list of an [Event] that was sent. *)
Definition reported (p : ptr) (sent : list send) : Prop :=
  ∃ ev, OnEventChan ev ∈ sent ∧ p ∈ Files ev.

(** Every registered pointer is a live [File] with a reader, as [NewFile]
    makes them. *)
Definition registry_ok (h : gmap ptr File) (fl : list ptr) : Prop :=
  Forall (λ p, is_Some (h !! p ≫= reader)) fl.

(** A visit under [fs] finds nothing new for [file]: the read fails, or
    returns the stored snapshot. *)
Definition quiet (fs : FS) (file : File) : Prop :=
  ∀ d, observe fs file = Some (Read d) → d = fileData file.

(** The state after a detected change of [p] to [data]. *)
Definition record_change (p : ptr) (file : File) (data : FileData) (s : Scan)
  : Scan :=
  {| sc_heap := <[p := set_fileData file data]> (sc_heap s);
     sc_event := mk_Event (ev_files (sc_event s) ++ [p]);
     sc_sent := sc_sent s |}.

(** The state in which [publishChanges] enters its loop. *)
Definition scan_start (h : gmap ptr File) : Scan :=
  {| sc_heap := h; sc_event := mk_Event []; sc_sent := [] |}.

(** What [publishChanges] has sent once its loop has ended in state [s]. *)
Definition sent_after (s : Scan) : list send :=
  if (0 <? length (ev_files (sc_event s)))%nat
  then sc_sent s ++ [OnEventChan (sc_event s)]
  else sc_sent s.

(** Every visit of [p] in the pass fails. *)
Definition visits_fail (wd : World) (fl : list ptr) (p : ptr) (f : File)
  : Prop :=
  ∀ k, fl !! k = Some p → ∃ err, observe (wd k) f = Some (Failed err).

(** Every visit of [p] in the pass reads [d]. *)
Definition visits_read (wd : World) (fl : list ptr) (p : ptr) (f : File)
    (d : FileData) : Prop :=
  ∀ k, fl !! k = Some p → observe (wd k) f = Some (Read d).

(** The registry after the removal of the first occurrence of a pointer:
    the last element, if there is one behind it, has moved into its slot. *)
Definition swap_removed (l1 l2 : list ptr) : list ptr :=
  match last l2 with
  | None => l1
  | Some lastFile => l1 ++ lastFile :: removelast l2
  end.

(** ** Sample objects *)

Definition bytes_of (s : string) : FileData := String.list_byte_of_string s.

Definition fs_with (name : string) (content : string) : FS :=
  {| fs_stat := λ n, if decide (n = name) then None else Some ENOENT;
     fs_open := λ n, if decide (n = name)
                     then inr (mk_os_File (bytes_of content) None)
                     else inl ENOENT |}.

Definition fs_empty : FS :=
  {| fs_stat := λ _, Some ENOENT; fs_open := λ _, inl ENOENT |}.

Definition file_a (content : string) : File :=
  {| fileName := "a.txt"; fileData := bytes_of content;
     reader := Some ReadFile; tag := "" |}.

Definition file_b (content : string) : File :=
  {| fileName := "b.txt"; fileData := bytes_of content;
     reader := Some ReadFile; tag := "" |}.

Definition heap_a : gmap ptr File := <[0%nat := file_a "v1"]> ∅.

Definition heap_ab : gmap ptr File := <[1%nat := file_b "w1"]> heap_a.

Definition watch_a : Watchman :=
  {| files := [0%nat]; pollInterval := 10 * time_Second |}.

Definition watch_ba : Watchman :=
  {| files := [1%nat; 0%nat]; pollInterval := 10 * time_Second |}.

(** ** Vocabulary of the further statements *)

(** The options for a [File] that the package itself provides. *)
Inductive FileOpt : Type :=
  | OptReader (rd : option FileReader)
  | OptTag (t : string).

Definition fileOpt (o : FileOpt) : NewFileOpt :=
  match o with
  | OptReader rd => WithReader rd
  | OptTag t => WithTag t
  end.

(** The reader and the tag that a list of such options leaves, applied in
    order on a [File] that had [rd0] and [t0]. *)
Definition last_reader (os : list FileOpt) (rd0 : option FileReader)
  : option FileReader :=
  foldl (λ acc o, match o with OptReader rd => rd | OptTag _ => acc end) rd0 os.

Definition last_tag (os : list FileOpt) (t0 : string) : string :=
  foldl (λ acc o, match o with OptTag t => t | OptReader _ => acc end) t0 os.

(** The errors of the failing visits of a pass over [fl] that starts at
    slot [i], in the order of the slots. *)
Fixpoint failures (wd : World) (i : nat) (fl : list ptr) (h : gmap ptr File)
  : list error :=
  match fl with
  | [] => []
  | p :: rest =>
      match h !! p ≫= observe (wd i) with
      | Some (Failed err) => err :: failures wd (S i) rest h
      | _ => failures wd (S i) rest h
      end
  end.

(** What a pass sends for a batch: nothing when it is empty. *)
Definition event_of (batch : list ptr) : list send :=
  match batch with
  | [] => []
  | _ :: _ => [OnEventChan (mk_Event batch)]
  end.

#[global] Instance Event_eq_dec : EqDecision Event.
Proof. solve_decision. Defined.

#[global] Instance send_eq_dec : EqDecision send.
Proof. solve_decision. Defined.

(** How many times [m] was sent. *)
Definition times_sent (m : send) (sent : list send) : nat :=
  length (filter (λ x, x = m) sent).

(** [h'] is [h] with other snapshots stored in some descriptors of [fl]:
    same addresses, same paths, readers and tags, and nothing changed outside
    [fl]. *)
Definition data_only (fl : list ptr) (h h' : gmap ptr File) : Prop :=
  ∀ q, match h !! q with
       | Some f => ∃ d, h' !! q = Some (set_fileData f d) ∧
                        (q ∉ fl → d = fileData f)
       | None => h' !! q = None
       end.

(** The heap, and the state of the loop, with the tag of [f] set to [t]. *)
Definition retag (f : ptr) (t : string) (h : gmap ptr File) : gmap ptr File :=
  alter (λ file, set_tag file t) f h.

Definition retag_scan (f : ptr) (t : string) (s : Scan) : Scan :=
  {| sc_heap := retag f t (sc_heap s); sc_event := sc_event s;
     sc_sent := sc_sent s |}.

(** A 16-byte stand-in for [md5.Sum] in worked instances: the first byte
    of the content, padded. *)
Definition sum16 (data : list Byte.byte) : list Byte.byte :=
  take 16 (take 1 data ++ replicate 16 Byte.x00).

(** A descriptor of [a.txt] read through the digest reader, and a heap
    that holds it. *)
Definition file_digest (content : string) : File :=
  {| fileName := "a.txt"; fileData := sum16 (bytes_of content);
     reader := Some (MD5Checksum sum16); tag := "" |}.

Definition heap_digest : gmap ptr File := <[0%nat := file_digest "v1"]> ∅.

(** ** The loop body *)

Lemma set_fileData_same (f : File) : set_fileData f (fileData f) = f.
Proof. by destruct f. Qed.

Lemma set_fileData_twice (f : File) (d1 d2 : FileData) :
  set_fileData (set_fileData f d1) d2 = set_fileData f d2.
Proof. done. Qed.

Lemma observe_set_fileData (fs : FS) (f : File) (d : FileData) :
  observe fs (set_fileData f d) = observe fs f.
Proof. done. Qed.

Lemma bytes_Equal_true (a b : FileData) : bytes_Equal a b = true ↔ a = b.
Proof. unfold bytes_Equal. by rewrite bool_decide_eq_true. Qed.

Lemma bytes_Equal_false (a b : FileData) : bytes_Equal a b = false ↔ a ≠ b.
Proof. unfold bytes_Equal. by rewrite bool_decide_eq_false. Qed.

(** The three ways out of the loop body. *)
Lemma scanFile_inv (fs : FS) (p : ptr) (s s' : Scan) :
  scanFile fs p s = Some s' →
  ∃ file, sc_heap s !! p = Some file ∧
    ((∃ err, observe fs file = Some (Failed err) ∧ s' = sendErr s err) ∨
     (observe fs file = Some (Read (fileData file)) ∧ s' = s) ∨
     (∃ d, observe fs file = Some (Read d) ∧ d ≠ fileData file ∧
           s' = record_change p file d s)).
Proof.
  unfold scanFile, observe. intros Hs.
  destruct (sc_heap s !! p) as [file|] eqn:Hp; [|done].
  exists file. split; [done|]. simpl in Hs.
  destruct (os_Open fs (fileName file)) as [err|openFile].
  { left. exists err. naive_solver. }
  destruct (reader file) as [rd|]; [|done]. simpl in *.
  destruct (rd openFile) as [data [err|]].
  { left. exists err. naive_solver. }
  destruct (bytes_Equal data (fileData file)) eqn:Heq; simpl in Hs.
  - apply bytes_Equal_true in Heq. subst data. right. left. naive_solver.
  - apply bytes_Equal_false in Heq. right. right. exists data. naive_solver.
Qed.

Lemma scanFile_total (fs : FS) (p : ptr) (s : Scan) :
  is_Some (sc_heap s !! p ≫= reader) → is_Some (scanFile fs p s).
Proof.
  unfold scanFile. intros [rd Hrd].
  destruct (sc_heap s !! p) as [file|]; [|done]. simpl in *. rewrite Hrd.
  destruct (os_Open fs (fileName file)); [done|]. simpl.
  destruct (rd _) as [data [err|]]; [done|].
  by destruct (negb _).
Qed.

(** Run of the body when the outcome of the read is known. *)
Lemma scanFile_failed (fs : FS) (p : ptr) (s : Scan) (file : File) (err : error) :
  sc_heap s !! p = Some file → observe fs file = Some (Failed err) →
  scanFile fs p s = Some (sendErr s err).
Proof.
  unfold scanFile, observe. intros -> Ho. simpl.
  destruct (os_Open fs (fileName file)); [naive_solver|].
  destruct (reader file) as [rd|]; [|done]. simpl in *.
  destruct (rd _) as [data [e|]]; naive_solver.
Qed.

Lemma scanFile_read (fs : FS) (p : ptr) (s : Scan) (file : File) (d : FileData) :
  sc_heap s !! p = Some file → observe fs file = Some (Read d) →
  scanFile fs p s =
    Some (if decide (d = fileData file) then s else record_change p file d s).
Proof.
  unfold scanFile, observe. intros -> Ho. simpl.
  destruct (os_Open fs (fileName file)); [naive_solver|].
  destruct (reader file) as [rd|]; [|done]. simpl in *.
  destruct (rd _) as [data [e|]]; [naive_solver|].
  assert (data = d) as -> by naive_solver.
  unfold bytes_Equal. by case_decide; case_bool_decide.
Qed.

(** ** The loop *)

Lemma scan_app (wd : World) (i : nat) (l1 l2 : list ptr) (s : Scan) :
  scan wd i (l1 ++ l2) s = scan wd i l1 s ≫= scan wd (i + length l1) l2.
Proof.
  revert i s. induction l1 as [|q l1 IH]; intros i s; simpl.
  - by rewrite Nat.add_0_r.
  - destruct (scanFile (wd i) q s) as [s1|]; simpl; [|done].
    rewrite IH. by replace (S i + length l1)%nat with (i + S (length l1))%nat by lia.
Qed.

(** The body only ever rewrites the [fileData] field of a [File]. *)
Lemma scanFile_heap (fs : FS) (p q : ptr) (s s' : Scan) (f : File) :
  scanFile fs p s = Some s' → sc_heap s !! q = Some f →
  ∃ d, sc_heap s' !! q = Some (set_fileData f d).
Proof.
  intros (file & Hp & [(err & _ & ->) | [[_ ->] | (d & _ & _ & ->)]])%scanFile_inv Hq.
  - exists (fileData f). by rewrite set_fileData_same.
  - exists (fileData f). by rewrite set_fileData_same.
  - simpl. destruct (decide (p = q)) as [->|Hne].
    + exists d. rewrite lookup_insert_eq. congruence.
    + exists (fileData f). by rewrite lookup_insert_ne, set_fileData_same.
Qed.

Lemma scan_heap (wd : World) (i : nat) (fl : list ptr) (q : ptr)
    (s s' : Scan) (f : File) :
  scan wd i fl s = Some s' → sc_heap s !! q = Some f →
  ∃ d, sc_heap s' !! q = Some (set_fileData f d).
Proof.
  revert i s f. induction fl as [|p fl IH]; intros i s f; simpl.
  - intros [= <-] Hq. exists (fileData f). by rewrite set_fileData_same.
  - destruct (scanFile (wd i) p s) as [s1|] eqn:H1; simpl; [|done].
    intros Hrest Hq.
    destruct (scanFile_heap _ _ _ _ _ _ H1 Hq) as [d1 Hq1].
    destruct (IH _ _ _ Hrest Hq1) as [d Hq']. exists d.
    by rewrite Hq', set_fileData_twice.
Qed.

Lemma registry_ok_scanFile (fs : FS) (p : ptr) (s s' : Scan) (fl : list ptr) :
  scanFile fs p s = Some s' →
  registry_ok (sc_heap s) fl → registry_ok (sc_heap s') fl.
Proof.
  intros Hs Hok. unfold registry_ok in *.
  eapply Forall_impl; [exact Hok|]. simpl. intros q [rd Hrd].
  destruct (sc_heap s !! q) as [f|] eqn:Hq; [|done].
  destruct (scanFile_heap _ _ q _ _ _ Hs Hq) as [d ->]. by exists rd.
Qed.

(** On a well-formed registry the loop runs to its end. *)
Lemma scan_total (wd : World) (i : nat) (fl : list ptr) (s : Scan) :
  registry_ok (sc_heap s) fl → is_Some (scan wd i fl s).
Proof.
  revert i s. induction fl as [|p fl IH]; intros i s Hok; simpl; [done|].
  apply Forall_cons in Hok as [Hp Hok].
  destruct (scanFile_total (wd i) p s Hp) as [s1 H1]. rewrite H1. simpl.
  apply IH. by eapply registry_ok_scanFile.
Qed.

(** Both outputs of the loop only grow, and the loop sends only errors. *)
Lemma scanFile_grows (fs : FS) (p : ptr) (s s' : Scan) :
  scanFile fs p s = Some s' →
  (∃ evs, ev_files (sc_event s') = ev_files (sc_event s) ++ evs) ∧
  (∃ errs, sc_sent s' = sc_sent s ++ (OnErrChan <$> errs)).
Proof.
  intros (file & Hp & [(err & _ & ->) | [[_ ->] | (d & _ & _ & ->)]])%scanFile_inv;
    simpl.
  - split; [exists []; by rewrite app_nil_r | by exists [err]].
  - split; [exists [] | exists []]; by rewrite app_nil_r.
  - split; [by exists [p] | exists []; by rewrite app_nil_r].
Qed.

Lemma scan_grows (wd : World) (i : nat) (fl : list ptr) (s s' : Scan) :
  scan wd i fl s = Some s' →
  (∃ evs, ev_files (sc_event s') = ev_files (sc_event s) ++ evs) ∧
  (∃ errs, sc_sent s' = sc_sent s ++ (OnErrChan <$> errs)).
Proof.
  revert i s. induction fl as [|p fl IH]; intros i s; simpl.
  - intros [= <-]. split; [exists [] | exists []]; by rewrite app_nil_r.
  - destruct (scanFile (wd i) p s) as [s1|] eqn:H1; simpl; [|done].
    intros Hrest.
    destruct (scanFile_grows _ _ _ _ H1) as [[evs1 He1] [errs1 Hs1]].
    destruct (IH _ _ Hrest) as [[evs2 He2] [errs2 Hs2]].
    split.
    + exists (evs1 ++ evs2). by rewrite He2, He1, app_assoc.
    + exists (errs1 ++ errs2). by rewrite Hs2, Hs1, fmap_app, app_assoc.
Qed.

Lemma scan_event_mono (wd : World) (i : nat) (fl : list ptr) (s s' : Scan)
    (p : ptr) :
  scan wd i fl s = Some s' →
  p ∈ ev_files (sc_event s) → p ∈ ev_files (sc_event s').
Proof.
  intros [[evs ->] _]%scan_grows Hin. apply elem_of_app. by left.
Qed.

Lemma scan_sent_mono (wd : World) (i : nat) (fl : list ptr) (s s' : Scan)
    (m : send) :
  scan wd i fl s = Some s' → m ∈ sc_sent s → m ∈ sc_sent s'.
Proof.
  intros [_ [errs ->]]%scan_grows Hin. apply elem_of_app. by left.
Qed.

(** A snapshot is only ever written together with an append to the batch. *)
Lemma scan_written_reported (wd : World) (i : nat) (fl : list ptr)
    (s s' : Scan) (p : ptr) :
  scan wd i fl s = Some s' →
  sc_heap s' !! p = sc_heap s !! p ∨ p ∈ ev_files (sc_event s').
Proof.
  revert i s. induction fl as [|q fl IH]; intros i s; simpl.
  - intros [= <-]. by left.
  - destruct (scanFile (wd i) q s) as [s1|] eqn:H1; simpl; [|done].
    intros Hrest.
    apply scanFile_inv in H1
      as (file & Hq & [(err & _ & ->) | [[_ ->] | (d & _ & _ & ->)]]).
    + apply (IH _ _ Hrest).
    + apply (IH _ _ Hrest).
    + destruct (decide (q = p)) as [->|Hne].
      * right. eapply scan_event_mono; [done|]. simpl. set_solver.
      * destruct (IH _ _ Hrest) as [Heq|Hin]; [left|by right].
        rewrite Heq. simpl. by rewrite lookup_insert_ne.
Qed.

(** A descriptor all of whose visits are quiet keeps its [File] and is not
    appended to the batch. *)
Lemma scan_quiet (wd : World) (i : nat) (fl : list ptr) (s s' : Scan)
    (p : ptr) (f : File) :
  scan wd i fl s = Some s' → sc_heap s !! p = Some f →
  (∀ k, fl !! k = Some p → quiet (wd (i + k)%nat) f) →
  sc_heap s' !! p = Some f ∧
  (p ∈ ev_files (sc_event s') → p ∈ ev_files (sc_event s)).
Proof.
  revert i s. induction fl as [|q fl IH]; intros i s; simpl.
  - by intros [= <-] Hp _.
  - destruct (scanFile (wd i) q s) as [s1|] eqn:H1; simpl; [|done].
    intros Hrest Hp Hquiet.
    assert (sc_heap s1 !! p = Some f ∧
            (p ∈ ev_files (sc_event s1) → p ∈ ev_files (sc_event s)))
      as [Hp1 Hev1].
    { apply scanFile_inv in H1
        as (file & Hq & [(err & _ & ->) | [[_ ->] | (d & Ho & Hd & ->)]]);
        [done|done|].
      destruct (decide (q = p)) as [->|Hne].
      - assert (file = f) as -> by congruence.
        specialize (Hquiet 0%nat eq_refl). rewrite Nat.add_0_r in Hquiet.
        by specialize (Hquiet d Ho).
      - simpl. rewrite lookup_insert_ne by done. split; [done|].
        intros [Hin|Hin%list_elem_of_singleton]%elem_of_app; [done|].
        by subst. }
    destruct (IH (S i) s1 Hrest Hp1) as [Hp' Hev'].
    + intros k Hk. replace (S i + k)%nat with (i + S k)%nat by lia.
      by apply Hquiet.
    + split; [done|]. auto.
Qed.

(** A failing visit puts its error on the error channel. *)
Lemma scan_error_sent (wd : World) (i k : nat) (fl : list ptr) (s s' : Scan)
    (p : ptr) (f : File) (err : error) :
  scan wd i fl s = Some s' → fl !! k = Some p → sc_heap s !! p = Some f →
  observe (wd (i + k)%nat) f = Some (Failed err) →
  OnErrChan err ∈ sc_sent s'.
Proof.
  revert i k s f. induction fl as [|q fl IH]; intros i k s f; [done|]. simpl.
  destruct (scanFile (wd i) q s) as [s1|] eqn:H1; simpl; [|done].
  intros Hrest Hk Hp Ho. destruct k as [|k]; simpl in Hk.
  - injection Hk as ->. rewrite Nat.add_0_r in Ho.
    rewrite (scanFile_failed _ _ _ _ _ Hp Ho) in H1. injection H1 as <-.
    eapply scan_sent_mono; [done|]. simpl. set_solver.
  - destruct (scanFile_heap _ _ p _ _ _ H1 Hp) as [d1 Hp1].
    apply (IH (S i) k s1 _ Hrest Hk Hp1).
    rewrite observe_set_fileData.
    by replace (S i + k)%nat with (i + S k)%nat by lia.
Qed.

(** A visit that reads something else than the snapshot the pass started
    with puts the descriptor in the batch. *)
Lemma scan_change_reported (wd : World) (i k : nat) (fl : list ptr)
    (s s' : Scan) (p : ptr) (f : File) (d : FileData) :
  scan wd i fl s = Some s' → fl !! k = Some p → sc_heap s !! p = Some f →
  observe (wd (i + k)%nat) f = Some (Read d) → d ≠ fileData f →
  p ∈ ev_files (sc_event s').
Proof.
  revert i k s. induction fl as [|q fl IH]; intros i k s; [done|]. simpl.
  destruct (scanFile (wd i) q s) as [s1|] eqn:H1; simpl; [|done].
  intros Hrest Hk Hp Ho Hd. destruct k as [|k]; simpl in Hk.
  - injection Hk as ->. rewrite Nat.add_0_r in Ho.
    rewrite (scanFile_read _ _ _ _ _ Hp Ho) in H1. injection H1 as <-.
    rewrite decide_False in Hrest by done.
    eapply scan_event_mono; [done|]. simpl. set_solver.
  - replace (i + S k)%nat with (S i + k)%nat in Ho by lia.
    apply scanFile_inv in H1
      as (file & Hq & [(err & _ & ->) | [[_ ->] | (d1 & _ & _ & ->)]]).
    + by apply (IH (S i) k _ Hrest Hk).
    + by apply (IH (S i) k _ Hrest Hk).
    + destruct (decide (q = p)) as [->|Hne].
      * eapply scan_event_mono; [done|]. simpl. set_solver.
      * apply (IH (S i) k _ Hrest Hk); [|done..].
        simpl. by rewrite lookup_insert_ne.
Qed.

(** With one slot per descriptor, a detected change leaves the value just
    read as the stored snapshot. *)
Lemma scan_change_stored (wd : World) (i k : nat) (fl : list ptr)
    (s s' : Scan) (p : ptr) (f : File) (d : FileData) :
  NoDup fl →
  scan wd i fl s = Some s' → fl !! k = Some p → sc_heap s !! p = Some f →
  observe (wd (i + k)%nat) f = Some (Read d) → d ≠ fileData f →
  sc_heap s' !! p = Some (set_fileData f d).
Proof.
  revert i k s. induction fl as [|q fl IH]; intros i k s; [done|]. simpl.
  destruct (scanFile (wd i) q s) as [s1|] eqn:H1; simpl; [|done].
  intros [Hnotin Hnd]%NoDup_cons Hrest Hk Hp Ho Hd.
  destruct k as [|k]; simpl in Hk.
  - injection Hk as ->. rewrite Nat.add_0_r in Ho.
    rewrite (scanFile_read _ _ _ _ _ Hp Ho) in H1. injection H1 as <-.
    rewrite decide_False in Hrest by done.
    eapply (scan_quiet _ _ _ _ _ p); [done| |].
    + simpl. by rewrite lookup_insert_eq.
    + intros k' Hk'. exfalso. apply Hnotin. by eapply list_elem_of_lookup_2.
  - assert (q ≠ p) as Hne.
    { intros ->. apply Hnotin. by eapply list_elem_of_lookup_2. }
    replace (i + S k)%nat with (S i + k)%nat in Ho by lia.
    apply (IH (S i) k s1 Hnd Hrest Hk); [|done..].
    apply scanFile_inv in H1
      as (file & Hq & [(err & _ & ->) | [[_ ->] | (d1 & _ & _ & ->)]]);
      [done|done|].
    simpl. by rewrite lookup_insert_ne.
Qed.

(** Only registered descriptors enter the batch. *)
Lemma scan_event_registered (wd : World) (i : nat) (fl : list ptr)
    (s s' : Scan) (p : ptr) :
  scan wd i fl s = Some s' → p ∈ ev_files (sc_event s') →
  p ∈ ev_files (sc_event s) ∨ p ∈ fl.
Proof.
  revert i s. induction fl as [|q fl IH]; intros i s; simpl.
  - intros [= <-] Hin. by left.
  - destruct (scanFile (wd i) q s) as [s1|] eqn:H1; simpl; [|done].
    intros Hrest Hin.
    destruct (IH _ _ Hrest Hin) as [Hin1|Hin1]; [|right; by constructor].
    apply scanFile_inv in H1
      as (file & Hq & [(err & _ & ->) | [[_ ->] | (d & _ & _ & ->)]]);
      [by left|by left|].
    simpl in Hin1.
    apply elem_of_app in Hin1 as [Hin1|Hin1%list_elem_of_singleton];
      [by left|right]. subst. by left.
Qed.

(** ** The pass as a whole *)

Lemma publishChanges_scan (wd : World) (w : Watchman) (h : gmap ptr File) :
  publishChanges wd w h =
    s ← scan wd 0 (files w) (scan_start h); Some (sc_heap s, sent_after s).
Proof. done. Qed.

Lemma publishChanges_total (wd : World) (w : Watchman) (h : gmap ptr File) :
  registry_ok h (files w) →
  ∃ s, scan wd 0 (files w) (scan_start h) = Some s ∧
       publishChanges wd w h = Some (sc_heap s, sent_after s).
Proof.
  intros Hok. destruct (scan_total wd 0 (files w) (scan_start h) Hok) as [s Hs].
  exists s. split; [done|]. by rewrite publishChanges_scan, Hs.
Qed.

(** The one event a pass can send is the batch, and only when it is not
    empty. *)
Lemma sent_after_event (wd : World) (fl : list ptr) (h : gmap ptr File)
    (s : Scan) (ev : Event) :
  scan wd 0 fl (scan_start h) = Some s →
  OnEventChan ev ∈ sent_after s ↔ ev = sc_event s ∧ ev_files ev ≠ [].
Proof.
  intros [_ [errs Hsent]]%scan_grows. simpl in Hsent.
  unfold sent_after. rewrite Hsent.
  assert (OnEventChan ev ∉ OnErrChan <$> errs) as Hno.
  { intros (e & ? & _)%list_elem_of_fmap. done. }
  destruct (ev_files (sc_event s)) as [|p evs] eqn:Hev; simpl.
  - split; [done|]. intros [-> ?]. done.
  - rewrite elem_of_app, list_elem_of_singleton. split.
    + intros [?|[= ->]]; [done|]. by rewrite Hev.
    + intros [-> _]. by right.
Qed.

Lemma sent_after_reported (wd : World) (fl : list ptr) (h : gmap ptr File)
    (s : Scan) (p : ptr) :
  scan wd 0 fl (scan_start h) = Some s →
  reported p (sent_after s) ↔ p ∈ ev_files (sc_event s).
Proof.
  intros Hs. unfold reported, Files. split.
  - intros (ev & Hev & Hin).
    apply (sent_after_event _ _ _ _ _ Hs) in Hev as [-> _]. done.
  - intros Hin. exists (sc_event s). split; [|done].
    apply (sent_after_event _ _ _ _ _ Hs). split; [done|].
    intros Hnil. rewrite Hnil in Hin. by apply elem_of_nil in Hin.
Qed.

Lemma sent_after_error (s : Scan) (err : error) :
  OnErrChan err ∈ sc_sent s → OnErrChan err ∈ sent_after s.
Proof.
  unfold sent_after. destruct (0 <? _)%nat; [|done].
  intros Hin. apply elem_of_app. by left.
Qed.

(** ** Construction of a Watchman *)

Lemma New_apply_app (opts1 opts2 : list NewOpt) (w : Watchman) :
  New_apply (opts1 ++ opts2) w = New_apply opts2 (New_apply opts1 w).
Proof.
  revert w. induction opts1 as [|opt opts1 IH]; intros w; simpl; [done|].
  apply IH.
Qed.

Lemma WithPollInterval_zero (w : Watchman) :
  WithPollInterval 0 w = (w, Some ErrInvalidDuration).
Proof. done. Qed.

(** C1.  What [New] does with a zero poll interval: the option
    [WithPollInterval 0] does return [ErrInvalidDuration], but [New] drops
    the value its options return and has no error result of its own.  So an
    option list with [WithPollInterval 0] builds the same watcher as the
    list without it, that watcher has a non-zero poll interval, and
    [New [WithPollInterval 0]] is the watcher with the default of ten
    seconds. *)
Theorem New_drops_InvalidDuration (opts1 opts2 : list NewOpt) :
  snd (WithPollInterval 0 (New_apply opts1 Watchman_zero))
    = Some ErrInvalidDuration ∧
  New (opts1 ++ WithPollInterval 0 :: opts2) = New (opts1 ++ opts2) ∧
  pollInterval (New (opts1 ++ WithPollInterval 0 :: opts2)) ≠ 0 ∧
  New [WithPollInterval 0]
    = {| files := []; pollInterval := 10 * time_Second |}.
Proof.
  split; [done|]. split.
  { unfold New. by rewrite !New_apply_app. }
  split; [|done].
  unfold New. destruct (pollInterval _ =? 0) eqn:Hz; simpl.
  - done.
  - by apply Z.eqb_neq.
Qed.

(** ** Construction of a File *)

Lemma NewFile_stat_fails (fs : FS) (h : gmap ptr File) (name : string)
    (opts : list NewFileOpt) (errno : Errno) :
  fs_stat fs name = Some errno →
  NewFile fs h name opts = ((None, Some (PathError "stat" name errno)), h).
Proof. intros Hst. unfold NewFile, NewFile_build, os_Stat. by rewrite Hst. Qed.

(** C2, as stated, fails: on a file system without [missing.txt], [NewFile]
    does not return [ErrInvalidFile]. *)
Lemma NewFile_missing_not_ErrInvalidFile :
  ¬ (∀ (fs : FS) (h : gmap ptr File) (name : string) (opts : list NewFileOpt),
       is_Some (fs_stat fs name) →
       fst (NewFile fs h name opts) = (None, Some ErrInvalidFile)).
Proof.
  intros Hclaim.
  specialize (Hclaim fs_empty ∅ "missing.txt" [] (mk_is_Some _ _ eq_refl)).
  rewrite (NewFile_stat_fails fs_empty ∅ "missing.txt" [] ENOENT eq_refl)
    in Hclaim.
  discriminate Hclaim.
Qed.

(** C2, amended.  For every path on which the stat check fails, [NewFile]
    returns no descriptor, leaves the heap as it was, and returns the error
    of [os.Stat] itself: the [*os.PathError] of that path and errno, which
    is not [ErrInvalidFile]. *)
Theorem NewFile_stat_error (fs : FS) (h : gmap ptr File) (name : string)
    (opts : list NewFileOpt) (errno : Errno) :
  fs_stat fs name = Some errno →
  NewFile fs h name opts = ((None, Some (PathError "stat" name errno)), h) ∧
  snd (fst (NewFile fs h name opts)) ≠ Some ErrInvalidFile.
Proof.
  intros Hst. rewrite (NewFile_stat_fails _ _ _ _ _ Hst). done.
Qed.

Lemma NewFile_stat_error_witness :
  NewFile fs_empty ∅ "missing.txt" [WithTag "t"]
    = ((None, Some (PathError "stat" "missing.txt" ENOENT)), ∅) ∧
  snd (fst (NewFile fs_empty ∅ "missing.txt" [WithTag "t"]))
    ≠ Some ErrInvalidFile.
Proof. apply (NewFile_stat_error fs_empty ∅ "missing.txt"). reflexivity. Defined.

(** Whatever makes [NewFile] fail, it returns nil and allocates nothing. *)
Lemma NewFile_error_no_descriptor (fs : FS) (h h' : gmap ptr File)
    (name : string) (opts : list NewFileOpt) (p : option ptr) (err : error) :
  NewFile fs h name opts = ((p, Some err), h') → p = None ∧ h' = h.
Proof.
  unfold NewFile. destruct (NewFile_build fs name opts); naive_solver.
Qed.

(** A [File] that [NewFile] returns has a reader, and reading it on the file
    system of its construction gives its stored snapshot. *)
Lemma NewFile_build_observe (fs : FS) (name : string) (opts : list NewFileOpt)
    (f : File) :
  NewFile_build fs name opts = inr f →
  is_Some (reader f) ∧ observe fs f = Some (Read (fileData f)).
Proof.
  unfold NewFile_build, observe.
  destruct (os_Stat fs name); [done|].
  destruct (NewFile_apply opts _) as [err|f0]; [done|]. simpl.
  destruct (os_Open fs (fileName f0)) as [err|openFile] eqn:Hopen; [done|].
  destruct (match reader f0 with Some r => r | None => ReadFile end openFile)
    as [data [err|]] eqn:Hrd; [done|].
  intros [= <-]. simpl. rewrite Hopen. simpl. by rewrite Hrd.
Qed.

Lemma NewFile_ok (fs : FS) (h h' : gmap ptr File) (name : string)
    (opts : list NewFileOpt) (p : ptr) :
  NewFile fs h name opts = ((Some p, None), h') →
  ∃ f, h !! p = None ∧ h' = <[p := f]> h ∧
       is_Some (reader f) ∧ observe fs f = Some (Read (fileData f)).
Proof.
  unfold NewFile. destruct (NewFile_build fs name opts) as [err|f] eqn:Hb;
    [done|].
  intros [= <- <-]. exists f. split.
  { apply not_elem_of_dom. apply is_fresh. }
  split; [done|]. by apply NewFile_build_observe with name opts.
Qed.

(** ** The registry *)

Lemma RemoveFile_range_absent (all rest : list ptr) (idx : nat) (file : ptr) :
  file ∉ rest → RemoveFile_range all idx rest file = all.
Proof.
  revert idx. induction rest as [|f rest IH]; intros idx Habs; simpl; [done|].
  apply not_elem_of_cons in Habs as [Hne Habs].
  rewrite decide_False by done. by apply IH.
Qed.

(** The loop stops at the first slot that holds [file]. *)
Lemma RemoveFile_range_first (all l1 l2 : list ptr) (idx : nat) (file : ptr) :
  file ∉ l1 →
  RemoveFile_range all idx (l1 ++ file :: l2) file =
    match all !! (length all - 1)%nat with
    | Some lastFile =>
        take (length all - 1) (<[(idx + length l1)%nat := lastFile]> all)
    | None => all
    end.
Proof.
  revert idx. induction l1 as [|f l1 IH]; intros idx Habs; simpl.
  - rewrite decide_True by done. by rewrite Nat.add_0_r.
  - apply not_elem_of_cons in Habs as [Hne Habs].
    rewrite decide_False by done. rewrite IH by done.
    by replace (S idx + length l1)%nat with (idx + S (length l1))%nat by lia.
Qed.

Lemma RemoveFile_shape (w : Watchman) (l1 l2 : list ptr) (file : ptr) :
  files w = l1 ++ file :: l2 → file ∉ l1 →
  files (RemoveFile w file) = swap_removed l1 l2.
Proof.
  intros Hw Habs. unfold RemoveFile, swap_removed. simpl.
  rewrite Hw at 2. rewrite RemoveFile_range_first by done. simpl.
  rewrite Hw. clear Hw w.
  destruct l2 as [|y l2 _] using rev_ind.
  - simpl. rewrite length_app. simpl.
    replace (length l1 + 1 - 1)%nat with (length l1) by lia.
    rewrite list_lookup_middle by done.
    rewrite insert_app_r_alt, Nat.sub_diag by done. simpl.
    by rewrite take_app_length.
  - rewrite last_snoc, removelast_last.
    replace (l1 ++ file :: l2 ++ [y]) with ((l1 ++ file :: l2) ++ [y])
      by (by rewrite <- app_assoc).
    rewrite length_app. simpl.
    replace (length (l1 ++ file :: l2) + 1 - 1)%nat
      with (length (l1 ++ file :: l2)) by lia.
    rewrite list_lookup_middle by done.
    rewrite <- app_assoc. simpl.
    rewrite insert_app_r_alt, Nat.sub_diag by done. simpl.
    replace (l1 ++ y :: l2 ++ [y]) with ((l1 ++ y :: l2) ++ [y])
      by (by rewrite <- app_assoc).
    apply take_app_length'. rewrite !length_app. simpl. lia.
Qed.

Lemma swap_removed_perm (l1 l2 : list ptr) : swap_removed l1 l2 ≡ₚ l1 ++ l2.
Proof.
  unfold swap_removed. destruct l2 as [|y l2 _] using rev_ind.
  - simpl. by rewrite app_nil_r.
  - rewrite last_snoc, removelast_last.
    apply Permutation_app_head. apply Permutation_cons_append.
Qed.

Lemma RemoveFile_absent (w : Watchman) (file : ptr) :
  file ∉ files w → RemoveFile w file = w.
Proof.
  intros Habs. unfold RemoveFile. rewrite RemoveFile_range_absent by done.
  by destruct w.
Qed.

(** A present pointer loses exactly one occurrence; nothing else changes
    in the multiset of registered pointers. *)
Lemma RemoveFile_perm (w : Watchman) (file : ptr) :
  file ∈ files w → files w ≡ₚ file :: files (RemoveFile w file).
Proof.
  intros (l1 & l2 & Hw & Habs)%list_elem_of_split_l.
  rewrite (RemoveFile_shape w l1 l2 file Hw Habs), swap_removed_perm, Hw.
  by rewrite Permutation_middle.
Qed.

(** ** More on the loop: several visits of one descriptor *)

Lemma scanFile_other (fs : FS) (p q : ptr) (s s' : Scan) :
  scanFile fs q s = Some s' → q ≠ p → sc_heap s' !! p = sc_heap s !! p.
Proof.
  intros (file & Hq & [(err & _ & ->) | [[_ ->] | (d & _ & _ & ->)]])%scanFile_inv
    Hne; [done|done|].
  simpl. by rewrite lookup_insert_ne.
Qed.

Lemma registry_ok_scan (wd : World) (i : nat) (fl fl' : list ptr) (s s' : Scan) :
  scan wd i fl s = Some s' →
  registry_ok (sc_heap s) fl' → registry_ok (sc_heap s') fl'.
Proof.
  intros Hs Hok. unfold registry_ok in *.
  eapply Forall_impl; [exact Hok|]. simpl. intros q [rd Hrd].
  destruct (sc_heap s !! q) as [f|] eqn:Hq; [|done].
  destruct (scan_heap _ _ _ q _ _ _ Hs Hq) as [d ->]. by exists rd.
Qed.

(** When every visit of a registered descriptor reads the same value, that
    value is its stored snapshot at the end of the pass. *)
Lemma scan_reads_stored (wd : World) (i : nat) (fl : list ptr) (s s' : Scan)
    (p : ptr) (f : File) (d : FileData) :
  scan wd i fl s = Some s' → sc_heap s !! p = Some f →
  (∀ k, fl !! k = Some p → observe (wd (i + k)%nat) f = Some (Read d)) →
  p ∈ fl →
  sc_heap s' !! p = Some (set_fileData f d).
Proof.
  revert i s. induction fl as [|q fl IH]; intros i s.
  { intros _ _ _ Hin. by apply elem_of_nil in Hin. }
  simpl. destruct (scanFile (wd i) q s) as [s1|] eqn:H1; simpl; [|done].
  intros Hrest Hp Hread Hin.
  assert (∀ k, fl !! k = Some p →
               observe (wd (S i + k)%nat) f = Some (Read d)) as Hread'.
  { intros k Hk. replace (S i + k)%nat with (i + S k)%nat by lia.
    by apply Hread. }
  destruct (decide (q = p)) as [->|Hne].
  - pose proof (Hread 0%nat eq_refl) as Ho. rewrite Nat.add_0_r in Ho.
    assert (sc_heap s1 !! p = Some (set_fileData f d)) as Hp1.
    { rewrite (scanFile_read _ _ _ _ _ Hp Ho) in H1. injection H1 as <-.
      case_decide as Hd.
      - subst d. by rewrite set_fileData_same.
      - simpl. by rewrite lookup_insert_eq. }
    eapply (scan_quiet _ _ _ _ _ p); [done..|].
    intros k Hk d' Hd'. rewrite observe_set_fileData, (Hread' k Hk) in Hd'.
    by injection Hd' as <-.
  - apply elem_of_cons in Hin as [->|Hin]; [done|].
    apply (IH (S i) s1 Hrest); [|done..].
    by rewrite (scanFile_other _ _ _ _ _ H1 Hne).
Qed.

Lemma reported_app (p : ptr) (sent1 sent2 : list send) :
  reported p (sent1 ++ sent2) ↔ reported p sent1 ∨ reported p sent2.
Proof.
  unfold reported. split.
  - intros (ev & [Hin|Hin]%elem_of_app & Hp); [left|right]; by exists ev.
  - intros [(ev & Hin & Hp)|(ev & Hin & Hp)]; exists ev;
      (split; [apply elem_of_app; by auto | done]).
Qed.

(** A pass in which every visit of [p] is quiet. *)
Lemma publishChanges_quiet (wd : World) (w : Watchman) (h : gmap ptr File)
    (p : ptr) (f : File) :
  registry_ok h (files w) → h !! p = Some f →
  (∀ k, files w !! k = Some p → quiet (wd k) f) →
  ∃ h' sent, publishChanges wd w h = Some (h', sent) ∧
    registry_ok h' (files w) ∧ h' !! p = Some f ∧ ¬ reported p sent.
Proof.
  intros Hok Hp Hquiet.
  destruct (publishChanges_total wd w h Hok) as (s & Hs & Hpub).
  exists (sc_heap s), (sent_after s). split; [done|].
  split; [by eapply (registry_ok_scan _ _ _ _ _ _ Hs)|].
  destruct (scan_quiet _ _ _ _ _ p f Hs Hp Hquiet) as [Hp' Hev].
  split; [done|].
  rewrite (sent_after_reported _ _ _ _ p Hs). intros Hin.
  apply Hev in Hin. by apply elem_of_nil in Hin.
Qed.

Lemma visits_fail_quiet (wd : World) (fl : list ptr) (p : ptr) (f : File) :
  visits_fail wd fl p f → ∀ k, fl !! k = Some p → quiet (wd k) f.
Proof. intros Hf k Hk d Hd. destruct (Hf k Hk) as [err He]. congruence. Qed.

(** Ticks on which every visit of [p] fails leave [p] as it was. *)
Lemma run_failing (ticks : list World) (w : Watchman) (h : gmap ptr File)
    (p : ptr) (f : File) :
  registry_ok h (files w) → h !! p = Some f →
  Forall (λ wd, visits_fail wd (files w) p f) ticks →
  ∃ h' sent, run ticks w h = Some (h', sent) ∧
    registry_ok h' (files w) ∧ h' !! p = Some f ∧ ¬ reported p sent.
Proof.
  revert h. induction ticks as [|wd ticks IH]; intros h Hok Hp Hfail; simpl.
  - exists h, []. split; [done|]. split; [done|]. split; [done|].
    intros (ev & Hin & _). by apply elem_of_nil in Hin.
  - apply Forall_cons in Hfail as [Hwd Hfail].
    destruct (publishChanges_quiet wd w h p f Hok Hp
                (visits_fail_quiet _ _ _ _ Hwd))
      as (h1 & sent1 & -> & Hok1 & Hp1 & Hno1). simpl.
    destruct (IH h1 Hok1 Hp1 Hfail) as (h2 & sent2 & -> & Hok2 & Hp2 & Hno2).
    simpl. exists h2, (sent1 ++ sent2). split; [done|].
    split; [done|]. split; [done|].
    rewrite reported_app. tauto.
Qed.

(** ** Properties of the scan pass *)

(** C3.  A descriptor whose open or reader fails at every visit of a pass
    keeps its stored snapshot through that pass, and through any number of
    such passes, and is not reported.  On the first pass after them in which
    it is read again, as [d] at every visit: if [d] is the snapshot from
    before the failures, it is not reported and stays as it was; if [d]
    differs, it is reported in that very pass and [d] becomes its stored
    snapshot. *)
Theorem failed_read_keeps_snapshot (w : Watchman) (h : gmap ptr File)
    (p : ptr) (f : File) (failing : list World) (next : World) (d : FileData) :
  registry_ok h (files w) → p ∈ files w → h !! p = Some f →
  Forall (λ wd, visits_fail wd (files w) p f) failing →
  visits_read next (files w) p f d →
  ∃ h1 sent1 h2 sent2,
    run failing w h = Some (h1, sent1) ∧
    h1 !! p = Some f ∧ ¬ reported p sent1 ∧
    publishChanges next w h1 = Some (h2, sent2) ∧
    (d = fileData f → ¬ reported p sent2 ∧ h2 !! p = Some f) ∧
    (d ≠ fileData f → reported p sent2 ∧ h2 !! p = Some (set_fileData f d)).
Proof.
  intros Hok Hin Hp Hfail Hread.
  destruct (run_failing failing w h p f Hok Hp Hfail)
    as (h1 & sent1 & Hrun & Hok1 & Hp1 & Hno1).
  destruct (publishChanges_total next w h1 Hok1) as (s & Hs & Hpub).
  exists h1, sent1, (sc_heap s), (sent_after s).
  repeat (split; [done|]).
  rewrite (sent_after_reported _ _ _ _ p Hs). split.
  - intros ->.
    destruct (scan_quiet _ _ _ _ _ p f Hs Hp1) as [Hp2 Hev].
    { intros k Hk d' Hd'. simpl in Hd'. rewrite (Hread k Hk) in Hd'.
      congruence. }
    split; [|done]. intros Hev'%Hev. by apply elem_of_nil in Hev'.
  - intros Hd. apply list_elem_of_lookup_1 in Hin as [k Hk]. split.
    + by apply (scan_change_reported _ _ k _ _ _ _ f d Hs Hk Hp1 (Hread k Hk)).
    + apply (scan_reads_stored _ _ _ _ _ _ _ _ Hs Hp1); [done|].
      by eapply list_elem_of_lookup_2.
Qed.

(** C4.  In a pass, a stored snapshot is written only for a descriptor that
    is put in the batch; and in a registry that holds each descriptor once,
    a descriptor that is read with success is, when the value read differs
    from its stored snapshot, reported and left with the value read as its
    stored snapshot, and, when the value read equals it, not reported and
    left as it was. *)
Theorem snapshot_updated_iff_changed (wd : World) (w : Watchman)
    (h : gmap ptr File) :
  registry_ok h (files w) →
  ∃ h' sent, publishChanges wd w h = Some (h', sent) ∧
    (∀ p, h' !! p ≠ h !! p → reported p sent) ∧
    (NoDup (files w) →
     ∀ k p f d, files w !! k = Some p → h !! p = Some f →
       observe (wd k) f = Some (Read d) →
       if decide (d = fileData f)
       then h' !! p = Some f ∧ ¬ reported p sent
       else h' !! p = Some (set_fileData f d) ∧ reported p sent).
Proof.
  intros Hok.
  destruct (publishChanges_total wd w h Hok) as (s & Hs & Hpub).
  exists (sc_heap s), (sent_after s). split; [done|]. split.
  - intros p Hne. rewrite (sent_after_reported _ _ _ _ p Hs).
    by destruct (scan_written_reported _ _ _ _ _ p Hs).
  - intros Hnd k p f d Hk Hp Ho.
    case_decide as Hd; rewrite (sent_after_reported _ _ _ _ p Hs).
    + subst d. destruct (scan_quiet _ _ _ _ _ p f Hs Hp) as [Hp' Hev].
      { intros k' Hk' d' Hd'. simpl in Hd'.
        rewrite (NoDup_lookup _ _ _ _ Hnd Hk' Hk) in Hd'. congruence. }
      split; [done|]. intros Hev'%Hev. by apply elem_of_nil in Hev'.
    + split.
      * by apply (scan_change_stored _ _ k _ _ _ _ _ _ Hnd Hs Hk Hp Ho).
      * by apply (scan_change_reported _ _ k _ _ _ _ f d Hs Hk Hp Ho).
Qed.

(** C5.  No event for a file that has not changed.  First, after
    [NewFile] has returned a descriptor, a pass that opens the descriptor's
    path to what [NewFile] opened does not report it: the snapshot stored at
    construction is what the pass reads.  Second, of two passes in a row in
    which every visit of a descriptor comes to the same outcome, the second
    does not report it. *)
Theorem unchanged_file_not_reported :
  (∀ (fs : FS) (h h1 : gmap ptr File) (name : string)
     (opts : list NewFileOpt) (p : ptr) (w : Watchman) (wd : World),
     NewFile fs h name opts = ((Some p, None), h1) →
     registry_ok h1 (files w) →
     (∀ k f, files w !! k = Some p → h1 !! p = Some f →
             fs_open (wd k) (fileName f) = fs_open fs (fileName f)) →
     ∃ h2 sent, publishChanges wd w h1 = Some (h2, sent) ∧
       ¬ reported p sent ∧ h2 !! p = h1 !! p) ∧
  (∀ (w : Watchman) (h : gmap ptr File) (p : ptr) (f : File)
     (wd1 wd2 : World) (o : outcome),
     registry_ok h (files w) → h !! p = Some f →
     (∀ k, files w !! k = Some p →
           observe (wd1 k) f = Some o ∧ observe (wd2 k) f = Some o) →
     ∃ h1 sent1 h2 sent2,
       publishChanges wd1 w h = Some (h1, sent1) ∧
       publishChanges wd2 w h1 = Some (h2, sent2) ∧
       ¬ reported p sent2 ∧ h2 !! p = h1 !! p).
Proof.
  split.
  - intros fs h h1 name opts p w wd Hnew Hok Hsame.
    apply NewFile_ok in Hnew as (f & Hfresh & -> & Hrd & Ho).
    assert (<[p:=f]> h !! p = Some f) as Hp by apply lookup_insert_eq.
    destruct (publishChanges_quiet wd w _ p f Hok Hp)
      as (h2 & sent & Hpub & _ & Hp2 & Hno).
    { intros k Hk d Hd. specialize (Hsame k f Hk Hp).
      unfold observe, os_Open in Hd, Ho. rewrite Hsame in Hd.
      congruence. }
    exists h2, sent. by rewrite Hp2, Hp.
  - intros w h p f wd1 wd2 o Hok Hp Hsame.
    destruct (publishChanges_total wd1 w h Hok) as (s1 & Hs1 & Hpub1).
    pose proof (registry_ok_scan _ _ _ _ _ _ Hs1 Hok) as Hok1.
    destruct (scan_heap _ _ _ p _ _ _ Hs1 Hp) as [d1 Hp1]. simpl in Hp1.
    destruct (publishChanges_quiet wd2 w (sc_heap s1) p _ Hok1 Hp1)
      as (h2 & sent2 & Hpub2 & _ & Hp2 & Hno).
    { intros k Hk d Hd. rewrite observe_set_fileData in Hd.
      destruct (Hsame k Hk) as [Ho1 Ho2]. rewrite Ho2 in Hd.
      injection Hd as ->.
      rewrite (scan_reads_stored _ _ _ _ _ p f d Hs1 Hp) in Hp1.
      - by injection Hp1 as <-.
      - intros k' Hk'. by destruct (Hsame k' Hk').
      - by eapply list_elem_of_lookup_2. }
    exists (sc_heap s1), (sent_after s1), h2, sent2.
    by rewrite Hp2, Hp1.
Qed.

(** C6.  A pass sends an [Event] only with a file list of length at least
    one, made of registered descriptors; a pass in which no visit finds a
    change sends no [Event] at all. *)
Theorem event_never_empty (wd : World) (w : Watchman) (h : gmap ptr File) :
  registry_ok h (files w) →
  ∃ h' sent, publishChanges wd w h = Some (h', sent) ∧
    (∀ ev, OnEventChan ev ∈ sent →
           (1 ≤ length (Files ev))%nat ∧ ∀ p, p ∈ Files ev → p ∈ files w) ∧
    ((∀ k p f, files w !! k = Some p → h !! p = Some f → quiet (wd k) f) →
     ∀ ev, OnEventChan ev ∉ sent).
Proof.
  intros Hok.
  destruct (publishChanges_total wd w h Hok) as (s & Hs & Hpub).
  exists (sc_heap s), (sent_after s). split; [done|]. split.
  - intros ev [-> Hne]%(sent_after_event _ _ _ _ _ Hs). unfold Files. split.
    + destruct (ev_files (sc_event s)); [done|]. simpl. lia.
    + intros p Hin.
      destruct (scan_event_registered _ _ _ _ _ p Hs Hin) as [Hnil|?]; [|done].
      by apply elem_of_nil in Hnil.
  - intros Hquiet ev [-> Hne]%(sent_after_event _ _ _ _ _ Hs).
    destruct (ev_files (sc_event s)) as [|p evs] eqn:Hev; [done|].
    assert (p ∈ ev_files (sc_event s)) as Hin by (rewrite Hev; by left).
    destruct (scan_event_registered _ _ _ _ _ p Hs Hin) as [Hnil|Hreg].
    { by apply elem_of_nil in Hnil. }
    unfold registry_ok in Hok. rewrite Forall_forall in Hok.
    destruct (Hok p Hreg) as [rd Hrd].
    destruct (h !! p) as [f|] eqn:Hp; [|done].
    destruct (scan_quiet _ _ _ _ _ p f Hs Hp) as [_ Hev'].
    { intros k Hk. by apply (Hquiet k p f). }
    apply Hev' in Hin. by apply elem_of_nil in Hin.
Qed.

(** C7.  In one pass every failing visit has its error sent on the error
    channel and every descriptor read to a value other than its stored
    snapshot is reported in the event, whatever happens at the other slots
    of the registry: an error at one slot and a change at another are both
    delivered. *)
Theorem error_does_not_stop_scan (wd : World) (w : Watchman)
    (h : gmap ptr File) :
  registry_ok h (files w) →
  ∃ h' sent, publishChanges wd w h = Some (h', sent) ∧
    (∀ k p f err, files w !! k = Some p → h !! p = Some f →
       observe (wd k) f = Some (Failed err) → OnErrChan err ∈ sent) ∧
    (∀ k p f d, files w !! k = Some p → h !! p = Some f →
       observe (wd k) f = Some (Read d) → d ≠ fileData f → reported p sent).
Proof.
  intros Hok.
  destruct (publishChanges_total wd w h Hok) as (s & Hs & Hpub).
  exists (sc_heap s), (sent_after s). split; [done|]. split.
  - intros k p f err Hk Hp Ho. apply sent_after_error.
    by apply (scan_error_sent _ _ k _ _ _ p f err Hs Hk Hp).
  - intros k p f d Hk Hp Ho Hd. rewrite (sent_after_reported _ _ _ _ p Hs).
    by apply (scan_change_reported _ _ k _ _ _ _ f d Hs Hk Hp Ho).
Qed.

(** ** Properties of the registry and of the tag *)

(** C8.  [RemoveFile] looks at pointers only.  For a pointer that is not in
    the registry it changes nothing, whatever the files behind the
    registered pointers are (the same path included); for a pointer that is
    in the registry it takes out that pointer, and every other pointer is
    registered after the call exactly when it was before. *)
Theorem RemoveFile_by_identity (w : Watchman) (file : ptr) :
  (file ∉ files w → RemoveFile w file = w) ∧
  (file ∈ files w →
     length (files (RemoveFile w file)) = pred (length (files w))) ∧
  (∀ q, q ≠ file → q ∈ files (RemoveFile w file) ↔ q ∈ files w).
Proof.
  split; [apply RemoveFile_absent|]. split.
  - intros Hperm%RemoveFile_perm. apply Permutation_length in Hperm.
    rewrite Hperm. done.
  - intros q Hne. destruct (decide (file ∈ files w)) as [Hin|Hout].
    + pose proof (RemoveFile_perm w file Hin) as Hperm. split.
      * intros Hq. rewrite Hperm. by right.
      * intros Hq. rewrite Hperm in Hq.
        apply elem_of_cons in Hq as [->|Hq]; done.
    + by rewrite RemoveFile_absent.
Qed.

(** C9.  [RemoveFile] takes out the first occurrence of the pointer and no
    other: the last element of the registry moves into the freed slot and
    the other slots keep their place.  So the registry after is a
    permutation of what was before and what was behind that occurrence
    (later occurrences of the same pointer included), and [Find] sees the
    moved element at the slot of the removed one. *)
Theorem RemoveFile_first_occurrence (w : Watchman) (file : ptr)
    (l1 l2 : list ptr) :
  files w = l1 ++ file :: l2 → file ∉ l1 →
  files (RemoveFile w file) = swap_removed l1 l2 ∧
  files (RemoveFile w file) ≡ₚ l1 ++ l2 ∧
  (l2 ≠ [] → files (RemoveFile w file) !! length l1 = last l2) ∧
  (∀ h flt, Find (RemoveFile w file) h flt
            = List.filter (flt h) (swap_removed l1 l2)).
Proof.
  intros Hw Habs.
  pose proof (RemoveFile_shape w l1 l2 file Hw Habs) as Hshape.
  split; [done|]. split.
  { rewrite Hshape. apply swap_removed_perm. }
  split.
  - intros Hne. rewrite Hshape. unfold swap_removed.
    destruct (last l2) as [x|] eqn:Hlast.
    + by rewrite list_lookup_middle.
    + by apply last_None in Hlast.
  - intros h flt. unfold Find. by rewrite Hshape.
Qed.

(** C10.  On a live descriptor [SetTag] succeeds for every tag; it writes
    the tag field of that descriptor and nothing else, in this descriptor or
    in the rest of the heap; [GetTag] then returns the tag just set. *)
Theorem SetTag_only_tag (h : gmap ptr File) (f : ptr) (file : File)
    (t : string) :
  h !! f = Some file →
  ∃ h', SetTag h f t = Some h' ∧
    GetTag h' f = Some t ∧
    (∃ file', h' !! f = Some file' ∧ fileName file' = fileName file ∧
       reader file' = reader file ∧ fileData file' = fileData file ∧
       tag file' = t) ∧
    (∀ q, q ≠ f → h' !! q = h !! q) ∧
    (∀ t', ∃ h'', SetTag h' f t' = Some h'' ∧ GetTag h'' f = Some t').
Proof.
  intros Hf. unfold SetTag, GetTag. rewrite Hf. simpl.
  exists (<[f := set_tag file t]> h). split; [done|].
  rewrite lookup_insert_eq. simpl. split; [done|]. split.
  { by exists (set_tag file t). }
  split.
  { intros q Hne. by rewrite lookup_insert_ne. }
  intros t'. eexists. split; [done|]. by rewrite lookup_insert_eq.
Qed.

(** ** Worked instances *)

Lemma failed_read_keeps_snapshot_witness :
  ∃ h1 sent1 h2 sent2,
    run [constWorld fs_empty] watch_a heap_a = Some (h1, sent1) ∧
    h1 !! 0%nat = Some (file_a "v1") ∧ ¬ reported 0%nat sent1 ∧
    publishChanges (constWorld (fs_with "a.txt" "v2")) watch_a h1
      = Some (h2, sent2) ∧
    (bytes_of "v2" = fileData (file_a "v1") →
       ¬ reported 0%nat sent2 ∧ h2 !! 0%nat = Some (file_a "v1")) ∧
    (bytes_of "v2" ≠ fileData (file_a "v1") →
       reported 0%nat sent2 ∧
       h2 !! 0%nat = Some (set_fileData (file_a "v1") (bytes_of "v2"))).
Proof.
  apply (failed_read_keeps_snapshot watch_a heap_a 0%nat (file_a "v1")
           [constWorld fs_empty] (constWorld (fs_with "a.txt" "v2"))
           (bytes_of "v2")).
  - repeat constructor. by eexists.
  - by left.
  - reflexivity.
  - repeat constructor. intros k Hk. by eexists.
  - intros k Hk. reflexivity.
Defined.

Lemma snapshot_updated_iff_changed_witness :
  ∃ h' sent,
    publishChanges (constWorld (fs_with "a.txt" "v2")) watch_a heap_a
      = Some (h', sent) ∧
    (∀ p, h' !! p ≠ heap_a !! p → reported p sent) ∧
    (NoDup (files watch_a) →
     ∀ k p f d, files watch_a !! k = Some p → heap_a !! p = Some f →
       observe (constWorld (fs_with "a.txt" "v2") k) f = Some (Read d) →
       if decide (d = fileData f)
       then h' !! p = Some f ∧ ¬ reported p sent
       else h' !! p = Some (set_fileData f d) ∧ reported p sent).
Proof.
  apply (snapshot_updated_iff_changed (constWorld (fs_with "a.txt" "v2"))
           watch_a heap_a).
  repeat constructor. by eexists.
Defined.

Lemma unchanged_file_not_reported_witness :
  (∃ h2 sent,
     publishChanges (constWorld (fs_with "a.txt" "v1")) watch_a
       (snd (NewFile (fs_with "a.txt" "v1") ∅ "a.txt" [])) = Some (h2, sent) ∧
     ¬ reported 0%nat sent ∧
     h2 !! 0%nat
       = snd (NewFile (fs_with "a.txt" "v1") ∅ "a.txt" []) !! 0%nat) ∧
  (∃ h1 sent1 h2 sent2,
     publishChanges (constWorld (fs_with "a.txt" "v2")) watch_a heap_a
       = Some (h1, sent1) ∧
     publishChanges (constWorld (fs_with "a.txt" "v2")) watch_a h1
       = Some (h2, sent2) ∧
     ¬ reported 0%nat sent2 ∧ h2 !! 0%nat = h1 !! 0%nat).
Proof.
  split.
  - apply (proj1 unchanged_file_not_reported (fs_with "a.txt" "v1") ∅ _
             "a.txt" [] 0%nat watch_a (constWorld (fs_with "a.txt" "v1"))).
    + reflexivity.
    + repeat constructor. by eexists.
    + intros k f _ _. reflexivity.
  - apply (proj2 unchanged_file_not_reported watch_a heap_a 0%nat
             (file_a "v1") _ _ (Read (bytes_of "v2"))).
    + repeat constructor. by eexists.
    + reflexivity.
    + intros k _. split; reflexivity.
Defined.

Lemma event_never_empty_witness :
  ∃ h' sent,
    publishChanges (constWorld (fs_with "a.txt" "v1")) watch_a heap_a
      = Some (h', sent) ∧
    (∀ ev, OnEventChan ev ∈ sent →
       (1 ≤ length (Files ev))%nat ∧ ∀ p, p ∈ Files ev → p ∈ files watch_a) ∧
    ((∀ k p f, files watch_a !! k = Some p → heap_a !! p = Some f →
               quiet (constWorld (fs_with "a.txt" "v1") k) f) →
     ∀ ev, OnEventChan ev ∉ sent).
Proof.
  apply (event_never_empty (constWorld (fs_with "a.txt" "v1")) watch_a heap_a).
  repeat constructor. by eexists.
Defined.

Lemma error_does_not_stop_scan_witness :
  ∃ h' sent,
    publishChanges (constWorld (fs_with "a.txt" "v2")) watch_ba heap_ab
      = Some (h', sent) ∧
    (∀ k p f err, files watch_ba !! k = Some p → heap_ab !! p = Some f →
       observe (constWorld (fs_with "a.txt" "v2") k) f = Some (Failed err) →
       OnErrChan err ∈ sent) ∧
    (∀ k p f d, files watch_ba !! k = Some p → heap_ab !! p = Some f →
       observe (constWorld (fs_with "a.txt" "v2") k) f = Some (Read d) →
       d ≠ fileData f → reported p sent).
Proof.
  apply (error_does_not_stop_scan (constWorld (fs_with "a.txt" "v2"))
           watch_ba heap_ab).
  repeat constructor; by eexists.
Defined.

Example publishChanges_error_and_change :
  snd <$> publishChanges (constWorld (fs_with "a.txt" "v2")) watch_ba heap_ab
  = Some [OnErrChan (PathError "open" "b.txt" ENOENT);
          OnEventChan (mk_Event [0%nat])].
Proof. reflexivity. Qed.

Lemma RemoveFile_by_identity_witness :
  RemoveFile watch_a 1%nat = watch_a ∧
  length (files (RemoveFile watch_ba 1%nat)) = pred (length (files watch_ba)).
Proof.
  split.
  - apply (proj1 (RemoveFile_by_identity watch_a 1%nat)).
    intros [?|?%elem_of_nil]%elem_of_cons; done.
  - apply (proj1 (proj2 (RemoveFile_by_identity watch_ba 1%nat))). by left.
Defined.

Lemma RemoveFile_first_occurrence_witness :
  files (RemoveFile (mk_Watchman [1; 2; 1; 3]%nat 5) 1%nat)
    = swap_removed [] [2; 1; 3]%nat ∧
  files (RemoveFile (mk_Watchman [1; 2; 1; 3]%nat 5) 1%nat)
    ≡ₚ [] ++ [2; 1; 3]%nat ∧
  ([2; 1; 3]%nat ≠ [] →
   files (RemoveFile (mk_Watchman [1; 2; 1; 3]%nat 5) 1%nat) !! length (@nil ptr)
     = last [2; 1; 3]%nat) ∧
  (∀ h flt, Find (RemoveFile (mk_Watchman [1; 2; 1; 3]%nat 5) 1%nat) h flt
            = List.filter (flt h) (swap_removed [] [2; 1; 3]%nat)).
Proof.
  apply (RemoveFile_first_occurrence (mk_Watchman [1; 2; 1; 3]%nat 5) 1%nat
           [] [2; 1; 3]%nat).
  - reflexivity.
  - apply not_elem_of_nil.
Defined.

Example RemoveFile_twice_added :
  files (RemoveFile (fst (AddFile (fst (AddFile watch_ba 0%nat)) 0%nat)) 0%nat)
  = [1; 0; 0]%nat.
Proof. reflexivity. Qed.

Example RemoveFile_reorders :
  Find (mk_Watchman [1; 2; 3]%nat 5) ∅ (λ _ _, true) = [1; 2; 3]%nat ∧
  Find (RemoveFile (mk_Watchman [1; 2; 3]%nat 5) 1%nat) ∅ (λ _ _, true)
    = [3; 2]%nat.
Proof. split; reflexivity. Qed.

Lemma SetTag_only_tag_witness :
  ∃ h', SetTag heap_a 0%nat "x" = Some h' ∧
    GetTag h' 0%nat = Some "x" ∧
    (∃ file', h' !! 0%nat = Some file' ∧
       fileName file' = fileName (file_a "v1") ∧
       reader file' = reader (file_a "v1") ∧
       fileData file' = fileData (file_a "v1") ∧ tag file' = "x") ∧
    (∀ q, q ≠ 0%nat → h' !! q = heap_a !! q) ∧
    (∀ t', ∃ h'', SetTag h' 0%nat t' = Some h'' ∧ GetTag h'' 0%nat = Some t').
Proof. apply (SetTag_only_tag heap_a 0%nat (file_a "v1") "x"). reflexivity. Defined.

(** ** Further properties: construction *)

Lemma New_apply_intervals (ds : list Z) (w : Watchman) :
  New_apply (WithPollInterval <$> ds) w =
    {| files := files w;
       pollInterval :=
         default (pollInterval w) (last (filter (λ d, d ≠ 0) ds)) |}.
Proof.
  revert w. induction ds as [|d ds IH]; intros w; simpl.
  - by destruct w.
  - rewrite IH. unfold WithPollInterval.
    destruct (Z.eqb_spec d 0) as [->|Hd]; simpl.
    + by rewrite filter_cons_False by (intros Hne; by apply Hne).
    + rewrite filter_cons_True by done. rewrite last_cons.
      by destruct (last (filter _ ds)).
Qed.

(** X1.  Built from poll-interval options alone, the watcher has no files
    and the last non-zero interval of the list; zero intervals are passed
    over, and without a non-zero one the interval is ten seconds. *)
Theorem New_poll_interval (ds : list Z) :
  New (WithPollInterval <$> ds) =
    {| files := [];
       pollInterval :=
         default (10 * time_Second) (last (filter (λ d, d ≠ 0) ds)) |}.
Proof.
  unfold New. rewrite New_apply_intervals. simpl.
  destruct (last (filter (λ d, d ≠ 0) ds)) as [d|] eqn:Hlast; simpl; [|done].
  apply last_Some_elem_of, list_elem_of_filter in Hlast as [Hd _].
  by rewrite (proj2 (Z.eqb_neq d 0) Hd).
Qed.

Lemma NewFile_apply_app (opts1 opts2 : list NewFileOpt) (f : File) :
  NewFile_apply (opts1 ++ opts2) f =
    match NewFile_apply opts1 f with
    | inl err => inl err
    | inr f1 => NewFile_apply opts2 f1
    end.
Proof.
  revert f. induction opts1 as [|opt opts1 IH]; intros f; simpl; [done|].
  destruct (opt f) as [f' [err|]]; [done|]. apply IH.
Qed.

Lemma NewFile_apply_builtin (os : list FileOpt) (f : File) :
  NewFile_apply (fileOpt <$> os) f =
    inr {| fileName := fileName f; fileData := fileData f;
           reader := last_reader os (reader f);
           tag := last_tag os (tag f) |}.
Proof.
  revert f. induction os as [|o os IH]; intros f; simpl.
  - by destruct f.
  - destruct o as [rd|t]; simpl; by rewrite IH.
Qed.

(** X2.  [NewFile] with the package's own options, in full.  A failing
    stat gives the stat error; else a failing open gives the open error;
    else the file is read with the reader of the last [WithReader] option,
    or with [ReadFile] when there is none or the last one is nil, and a
    failing read gives its error; in these three cases no descriptor is
    returned and the heap is as before.  Otherwise the descriptor is new on
    the heap and holds the path, the bytes read, that reader, and the tag of
    the last [WithTag] option (the empty tag when there is none). *)
Theorem NewFile_builtin (fs : FS) (h : gmap ptr File) (name : string)
    (os : list FileOpt) :
  NewFile fs h name (fileOpt <$> os) =
    match fs_stat fs name with
    | Some errno => ((None, Some (PathError "stat" name errno)), h)
    | None =>
        match fs_open fs name with
        | inl errno => ((None, Some (PathError "open" name errno)), h)
        | inr openFile =>
            let rd := default ReadFile (last_reader os None) in
            match rd openFile with
            | (_, Some err) => ((None, Some err), h)
            | (data, None) =>
                ((Some (fresh (dom h)), None),
                 <[fresh (dom h) :=
                     {| fileName := name; fileData := data;
                        reader := Some rd; tag := last_tag os "" |}]> h)
            end
        end
    end.
Proof.
  unfold NewFile, NewFile_build, os_Stat, os_Open.
  destruct (fs_stat fs name) as [errno|]; [done|].
  rewrite NewFile_apply_builtin. simpl.
  destruct (fs_open fs name) as [errno|openFile]; [done|].
  destruct (last_reader os None) as [rd|]; simpl;
    by destruct (_ openFile) as [data [err|]].
Qed.

(** X3.  The first option that returns an error ends [NewFile] with that
    error: no descriptor is returned and the heap is as before, whatever the
    later options are and whatever opening the file would give. *)
Theorem NewFile_option_error (fs : FS) (h : gmap ptr File) (name : string)
    (opts1 opts2 : list NewFileOpt) (opt : NewFileOpt)
    (f1 f2 : File) (err : error) :
  fs_stat fs name = None →
  NewFile_apply opts1
    {| fileName := name; fileData := []; reader := None; tag := "" |}
    = inr f1 →
  opt f1 = (f2, Some err) →
  NewFile fs h name (opts1 ++ opt :: opts2) = ((None, Some err), h).
Proof.
  intros Hst H1 Hopt. unfold NewFile, NewFile_build, os_Stat.
  rewrite Hst. simpl. rewrite NewFile_apply_app, H1. simpl.
  by rewrite Hopt.
Qed.

Lemma NewFile_option_error_witness :
  NewFile (fs_with "a.txt" "v1") heap_a "a.txt"
    ([WithTag "t"] ++ (λ f, (f, Some (OtherError "no"))) :: [WithTag "u"])
    = ((None, Some (OtherError "no")), heap_a).
Proof.
  apply (NewFile_option_error (fs_with "a.txt" "v1") heap_a "a.txt"
           [WithTag "t"] [WithTag "u"] (λ f, (f, Some (OtherError "no")))
           {| fileName := "a.txt"; fileData := []; reader := None;
              tag := "t" |}
           {| fileName := "a.txt"; fileData := []; reader := None;
              tag := "t" |});
    reflexivity.
Defined.

(** X4.  A descriptor that [NewFile] returns is at an address the heap did
    not have; every [File] already on the heap is as before; and adding it
    to a registry that was well formed and without repetition gives one
    that is so again. *)
Theorem NewFile_AddFile_registry (fs : FS) (h h' : gmap ptr File)
    (name : string) (opts : list NewFileOpt) (p : ptr) (w : Watchman) :
  NewFile fs h name opts = ((Some p, None), h') →
  registry_ok h (files w) →
  h !! p = None ∧ (p ∉ files w) ∧
  (∀ q, q ≠ p → h' !! q = h !! q) ∧
  registry_ok h' (files (fst (AddFile w p))) ∧
  (NoDup (files w) → NoDup (files (fst (AddFile w p)))).
Proof.
  intros (f & Hfresh & -> & Hrd & _)%NewFile_ok Hok.
  assert (p ∉ files w) as Hnotin.
  { intros Hin. unfold registry_ok in Hok. rewrite Forall_forall in Hok.
    destruct (Hok p Hin) as [rd Hrd']. by rewrite Hfresh in Hrd'. }
  split; [done|]. split; [done|]. split.
  { intros q Hne. by rewrite lookup_insert_ne. }
  split.
  - simpl. unfold registry_ok in *. apply Forall_app. split.
    + rewrite Forall_forall in *. intros q Hq.
      rewrite lookup_insert_ne by (intros ->; done). by apply Hok.
    + apply Forall_singleton. by rewrite lookup_insert_eq.
  - intros Hnd. simpl. apply NoDup_app. split; [done|]. split.
    + intros q Hq ->%list_elem_of_singleton. done.
    + apply NoDup_singleton.
Qed.

Lemma NewFile_AddFile_registry_witness :
  heap_a !! 1%nat = None ∧ (1%nat ∉ files watch_a) ∧
  (∀ q, q ≠ 1%nat →
     snd (NewFile (fs_with "b.txt" "w1") heap_a "b.txt" []) !! q
       = heap_a !! q) ∧
  registry_ok (snd (NewFile (fs_with "b.txt" "w1") heap_a "b.txt" []))
    (files (fst (AddFile watch_a 1%nat))) ∧
  (NoDup (files watch_a) → NoDup (files (fst (AddFile watch_a 1%nat)))).
Proof.
  apply (NewFile_AddFile_registry (fs_with "b.txt" "w1") heap_a _ "b.txt" []).
  - reflexivity.
  - repeat constructor. by eexists.
Defined.

(** ** Further properties: the scan pass *)

Lemma scanFile_dom (fs : FS) (p q : ptr) (s s' : Scan) :
  scanFile fs p s = Some s' → sc_heap s !! q = None →
  sc_heap s' !! q = None.
Proof.
  intros (file & Hp & [(err & _ & ->) | [[_ ->] | (d & _ & _ & ->)]])%scanFile_inv
    Hq; [done|done|].
  simpl. rewrite lookup_insert_ne; [done|]. intros ->. congruence.
Qed.

(** What a visit will come to does not depend on the snapshots stored
    before it in the same pass. *)
Lemma scanFile_view (fs fs' : FS) (p q : ptr) (s s' : Scan) :
  scanFile fs p s = Some s' →
  sc_heap s' !! q ≫= observe fs' = sc_heap s !! q ≫= observe fs'.
Proof.
  intros Hs. destruct (sc_heap s !! q) as [f|] eqn:Hq.
  - destruct (scanFile_heap _ _ q _ _ _ Hs Hq) as [d ->]. done.
  - by rewrite (scanFile_dom _ _ q _ _ Hs Hq).
Qed.

Lemma failures_view (wd : World) (i : nat) (fl : list ptr)
    (h h' : gmap ptr File) :
  (∀ q fs, h' !! q ≫= observe fs = h !! q ≫= observe fs) →
  failures wd i fl h' = failures wd i fl h.
Proof.
  intros Hview. revert i. induction fl as [|p fl IH]; intros i; simpl; [done|].
  by rewrite Hview, IH.
Qed.

Lemma scan_failures (wd : World) (i : nat) (fl : list ptr) (s s' : Scan) :
  scan wd i fl s = Some s' →
  sc_sent s' = sc_sent s ++ (OnErrChan <$> failures wd i fl (sc_heap s)).
Proof.
  revert i s. induction fl as [|p fl IH]; intros i s; simpl.
  - intros [= <-]. by rewrite app_nil_r.
  - destruct (scanFile (wd i) p s) as [s1|] eqn:H1; simpl; [|done].
    intros Hrest. rewrite (IH _ _ Hrest).
    rewrite (failures_view _ _ _ (sc_heap s) (sc_heap s1))
      by (intros q fs; by apply (scanFile_view _ _ _ _ _ _ H1)).
    apply scanFile_inv in H1
      as (file & Hp & [(err & Ho & ->) | [[Ho ->] | (d & Ho & _ & ->)]]);
      rewrite Hp; simpl; rewrite Ho; simpl; [|done..].
    by rewrite <- app_assoc.
Qed.

Lemma scan_batch_sublist (wd : World) (i : nat) (fl : list ptr) (s s' : Scan) :
  scan wd i fl s = Some s' →
  ∃ evs, ev_files (sc_event s') = ev_files (sc_event s) ++ evs ∧
         evs `sublist_of` fl.
Proof.
  revert i s. induction fl as [|p fl IH]; intros i s; simpl.
  - intros [= <-]. exists []. by rewrite app_nil_r.
  - destruct (scanFile (wd i) p s) as [s1|] eqn:H1; simpl; [|done].
    intros (evs & -> & Hsub)%IH.
    apply scanFile_inv in H1
      as (file & Hp & [(err & _ & ->) | [[_ ->] | (d & _ & _ & ->)]]); simpl.
    + exists evs. split; [done|]. by apply sublist_cons.
    + exists evs. split; [done|]. by apply sublist_cons.
    + exists (p :: evs). split; [by rewrite <- app_assoc|].
      by apply sublist_skip.
Qed.

(** X5.  All that a pass sends: first one error for each failing visit, in
    the order of the registry, then at most one event, whose file list
    follows the order of the registry and, when the registry has no
    repetition, has none either.  Which visits fail is fixed by the heap and
    the file system the pass starts with. *)
Theorem publishChanges_sends (wd : World) (w : Watchman) (h : gmap ptr File) :
  registry_ok h (files w) →
  ∃ h' batch,
    publishChanges wd w h =
      Some (h', (OnErrChan <$> failures wd 0 (files w) h) ++ event_of batch) ∧
    batch `sublist_of` files w ∧
    (NoDup (files w) → NoDup batch).
Proof.
  intros Hok.
  destruct (publishChanges_total wd w h Hok) as (s & Hs & Hpub).
  destruct (scan_batch_sublist _ _ _ _ _ Hs) as (evs & Hev & Hsub).
  simpl in Hev. exists (sc_heap s), evs. split; [|split; [done|]].
  - rewrite Hpub. do 2 f_equal. unfold sent_after.
    rewrite (scan_failures _ _ _ _ _ Hs). simpl.
    destruct (sc_event s) as [batch]. simpl in Hev. subst batch. simpl.
    destruct evs as [|p evs]; simpl; [by rewrite app_nil_r|done].
  - intros Hnd. by apply (sublist_NoDup evs (files w)).
Qed.

Lemma publishChanges_sends_witness :
  ∃ h' batch,
    publishChanges (constWorld (fs_with "a.txt" "v2")) watch_ba heap_ab =
      Some (h', (OnErrChan <$> failures (constWorld (fs_with "a.txt" "v2")) 0
                                 (files watch_ba) heap_ab)
                ++ event_of batch) ∧
    batch `sublist_of` files watch_ba ∧
    (NoDup (files watch_ba) → NoDup batch).
Proof.
  apply (publishChanges_sends (constWorld (fs_with "a.txt" "v2"))
           watch_ba heap_ab).
  repeat constructor; by eexists.
Defined.




(** ** Further properties: the ticks of a running watcher *)

Lemma data_only_refl (fl : list ptr) (h : gmap ptr File) : data_only fl h h.
Proof.
  intros q. destruct (h !! q) as [f|]; [|done].
  exists (fileData f). by rewrite set_fileData_same.
Qed.

Lemma data_only_trans (fl : list ptr) (h1 h2 h3 : gmap ptr File) :
  data_only fl h1 h2 → data_only fl h2 h3 → data_only fl h1 h3.
Proof.
  intros H12 H23 q. specialize (H12 q). specialize (H23 q).
  destruct (h1 !! q) as [f|].
  - destruct H12 as (d1 & Hq2 & Hd1). rewrite Hq2 in H23.
    destruct H23 as (d2 & Hq3 & Hd2). exists d2. split; [done|].
    intros Hout. rewrite (Hd2 Hout). simpl. by apply Hd1.
  - by rewrite H12 in H23.
Qed.

Lemma scan_dom (wd : World) (i : nat) (fl : list ptr) (s s' : Scan) (q : ptr) :
  scan wd i fl s = Some s' → sc_heap s !! q = None → sc_heap s' !! q = None.
Proof.
  revert i s. induction fl as [|p fl IH]; intros i s; simpl.
  - by intros [= <-].
  - destruct (scanFile (wd i) p s) as [s1|] eqn:H1; simpl; [|done].
    intros Hrest Hq. apply (IH _ _ Hrest). by apply (scanFile_dom _ _ _ _ _ H1).
Qed.

Lemma scan_data_only (wd : World) (i : nat) (fl : list ptr) (s s' : Scan) :
  scan wd i fl s = Some s' → data_only fl (sc_heap s) (sc_heap s').
Proof.
  intros Hs q. destruct (sc_heap s !! q) as [f|] eqn:Hq.
  - destruct (scan_heap _ _ _ q _ _ _ Hs Hq) as [d Hq']. exists d.
    split; [done|]. intros Hout.
    destruct (scan_quiet _ _ _ _ _ q f Hs Hq) as [Hsame _].
    { intros k Hk. exfalso. apply Hout. by eapply list_elem_of_lookup_2. }
    rewrite Hsame in Hq'. by injection Hq' as ->.
  - by apply (scan_dom _ _ _ _ _ q Hs).
Qed.

Lemma data_only_view (fl : list ptr) (h h' : gmap ptr File) (q : ptr) (fs : FS) :
  data_only fl h h' → h' !! q ≫= observe fs = h !! q ≫= observe fs.
Proof.
  intros Hd. specialize (Hd q). destruct (h !! q) as [f|].
  - by destruct Hd as (d & -> & _).
  - by rewrite Hd.
Qed.

Lemma data_only_registry_ok (fl fl' : list ptr) (h h' : gmap ptr File) :
  data_only fl h h' → registry_ok h fl' → registry_ok h' fl'.
Proof.
  intros Hd Hok. unfold registry_ok in *.
  eapply Forall_impl; [exact Hok|]. simpl. intros q [rd Hrd].
  specialize (Hd q). destruct (h !! q) as [f|]; [|done].
  destruct Hd as (d & -> & _). by exists rd.
Qed.

Lemma publishChanges_data_only (wd : World) (w : Watchman)
    (h h' : gmap ptr File) (sent : list send) :
  publishChanges wd w h = Some (h', sent) → data_only (files w) h h'.
Proof.
  rewrite publishChanges_scan.
  destruct (scan wd 0 (files w) (scan_start h)) as [s|] eqn:Hs; [|done].
  intros [= <- _]. by apply (scan_data_only _ _ _ _ _ Hs).
Qed.

Lemma publishChanges_reported_registered (wd : World) (w : Watchman)
    (h h' : gmap ptr File) (sent : list send) (p : ptr) :
  publishChanges wd w h = Some (h', sent) → reported p sent → p ∈ files w.
Proof.
  rewrite publishChanges_scan.
  destruct (scan wd 0 (files w) (scan_start h)) as [s|] eqn:Hs; [|done].
  intros [= _ <-] Hrep. apply (sent_after_reported _ _ _ _ p Hs) in Hrep.
  destruct (scan_event_registered _ _ _ _ _ p Hs Hrep) as [Hnil|?]; [|done].
  by apply elem_of_nil in Hnil.
Qed.

Lemma run_data_only (ticks : list World) (w : Watchman) (h : gmap ptr File) :
  registry_ok h (files w) →
  ∃ h' sent, run ticks w h = Some (h', sent) ∧
    data_only (files w) h h' ∧ ∀ p, reported p sent → p ∈ files w.
Proof.
  revert h. induction ticks as [|wd ticks IH]; intros h Hok; simpl.
  - exists h, []. split; [done|]. split; [apply data_only_refl|].
    intros p (ev & Hin & _). by apply elem_of_nil in Hin.
  - destruct (publishChanges_total wd w h Hok) as (s & Hs & Hpub).
    rewrite Hpub. simpl.
    pose proof (publishChanges_data_only _ _ _ _ _ Hpub) as Hd1.
    destruct (IH (sc_heap s)) as (h2 & sent2 & -> & Hd2 & Hreg2).
    { by apply (data_only_registry_ok _ _ _ _ Hd1). }
    simpl. exists h2, (sent_after s ++ sent2). split; [done|].
    split; [by apply (data_only_trans _ _ _ _ Hd1)|].
    intros p [Hrep|Hrep]%reported_app; [|by apply Hreg2].
    by apply (publishChanges_reported_registered _ _ _ _ _ _ Hpub).
Qed.




Lemma run_quiet (ticks : list World) (w : Watchman) (h : gmap ptr File)
    (p : ptr) (f : File) :
  registry_ok h (files w) → h !! p = Some f →
  Forall (λ wd, ∀ k, files w !! k = Some p → quiet (wd k) f) ticks →
  ∃ h' sent, run ticks w h = Some (h', sent) ∧
    registry_ok h' (files w) ∧ h' !! p = Some f ∧ ¬ reported p sent.
Proof.
  revert h. induction ticks as [|wd ticks IH]; intros h Hok Hp Hq; simpl.
  - exists h, []. split; [done|]. split; [done|]. split; [done|].
    intros (ev & Hin & _). by apply elem_of_nil in Hin.
  - apply Forall_cons in Hq as [Hwd Hq].
    destruct (publishChanges_quiet wd w h p f Hok Hp Hwd)
      as (h1 & sent1 & -> & Hok1 & Hp1 & Hno1). simpl.
    destruct (IH h1 Hok1 Hp1 Hq) as (h2 & sent2 & -> & Hok2 & Hp2 & Hno2).
    simpl. exists h2, (sent1 ++ sent2). split; [done|].
    split; [done|]. split; [done|].
    rewrite reported_app. tauto.
Qed.

(** X9.  A file that has changed to a value and stays at it is reported
    once: the first pass that reads the new value reports the descriptor and
    stores the value; no later pass that reads the same value reports it
    again. *)
Theorem change_reported_once (w : Watchman) (h : gmap ptr File) (p : ptr)
    (f : File) (wd : World) (later : list World) (d : FileData) :
  registry_ok h (files w) → p ∈ files w → h !! p = Some f →
  d ≠ fileData f →
  Forall (λ wd', visits_read wd' (files w) p f d) (wd :: later) →
  ∃ h1 sent1 h2 sent2,
    publishChanges wd w h = Some (h1, sent1) ∧ reported p sent1 ∧
    h1 !! p = Some (set_fileData f d) ∧
    run later w h1 = Some (h2, sent2) ∧ ¬ reported p sent2 ∧
    h2 !! p = Some (set_fileData f d).
Proof.
  intros Hok Hin Hp Hd [Hwd Hlater]%Forall_cons.
  destruct (publishChanges_total wd w h Hok) as (s & Hs & Hpub).
  pose proof (scan_reads_stored _ _ _ _ _ p f d Hs Hp Hwd Hin) as Hp1.
  destruct (run_quiet later w (sc_heap s) p (set_fileData f d))
    as (h2 & sent2 & Hrun & _ & Hp2 & Hno2).
  { by apply (registry_ok_scan _ _ _ _ _ _ Hs). }
  { done. }
  { eapply Forall_impl; [exact Hlater|]. simpl. intros wd' Hread k Hk d' Hd'.
    rewrite observe_set_fileData, (Hread k Hk) in Hd'. by injection Hd' as <-. }
  exists (sc_heap s), (sent_after s), h2, sent2.
  split; [done|]. split; [|done].
  rewrite (sent_after_reported _ _ _ _ p Hs).
  apply list_elem_of_lookup_1 in Hin as [k Hk].
  by apply (scan_change_reported _ _ k _ _ _ _ f d Hs Hk Hp (Hwd k Hk)).
Qed.

Lemma change_reported_once_witness :
  ∃ h1 sent1 h2 sent2,
    publishChanges (constWorld (fs_with "a.txt" "v2")) watch_a heap_a
      = Some (h1, sent1) ∧ reported 0%nat sent1 ∧
    h1 !! 0%nat = Some (set_fileData (file_a "v1") (bytes_of "v2")) ∧
    run [constWorld (fs_with "a.txt" "v2"); constWorld (fs_with "a.txt" "v2")]
      watch_a h1 = Some (h2, sent2) ∧ ¬ reported 0%nat sent2 ∧
    h2 !! 0%nat = Some (set_fileData (file_a "v1") (bytes_of "v2")).
Proof.
  apply (change_reported_once watch_a heap_a 0%nat (file_a "v1")
           (constWorld (fs_with "a.txt" "v2"))
           [constWorld (fs_with "a.txt" "v2");
            constWorld (fs_with "a.txt" "v2")] (bytes_of "v2")).
  - repeat constructor. by eexists.
  - by left.
  - reflexivity.
  - discriminate.
  - repeat constructor; intros k Hk; reflexivity.
Defined.

Lemma times_sent_app (m : send) (sent1 sent2 : list send) :
  times_sent m (sent1 ++ sent2) = (times_sent m sent1 + times_sent m sent2)%nat.
Proof. unfold times_sent. by rewrite filter_app, length_app. Qed.

Lemma times_sent_elem_of (m : send) (sent : list send) :
  m ∈ sent → (1 ≤ times_sent m sent)%nat.
Proof.
  intros Hin. unfold times_sent.
  assert (m ∈ filter (λ x, x = m) sent) as Hf by (by apply list_elem_of_filter).
  destruct (filter _ sent); [by apply elem_of_nil in Hf|]. simpl. lia.
Qed.

(** X10.  No escalation and no removal on failure: as long as some visit
    of a descriptor fails with the same error at every tick, that error is
    sent at every tick, so at least as many times as there were ticks. *)
Theorem broken_file_errors_every_tick (ticks : list World) (w : Watchman)
    (h : gmap ptr File) (p : ptr) (err : error) :
  registry_ok h (files w) →
  Forall (λ wd, ∃ k, files w !! k = Some p ∧
                     h !! p ≫= observe (wd k) = Some (Failed err)) ticks →
  ∃ h' sent, run ticks w h = Some (h', sent) ∧
    (length ticks ≤ times_sent (OnErrChan err) sent)%nat.
Proof.
  revert h. induction ticks as [|wd ticks IH]; intros h Hok Hfail; simpl.
  - exists h, []. split; [done|]. lia.
  - apply Forall_cons in Hfail as [(k & Hk & Ho) Hfail].
    destruct (publishChanges_total wd w h Hok) as (s & Hs & Hpub).
    rewrite Hpub. simpl.
    pose proof (scan_data_only _ _ _ _ _ Hs) as Hd. simpl in Hd.
    destruct (IH (sc_heap s)) as (h2 & sent2 & -> & Hcount).
    { by apply (data_only_registry_ok _ _ _ _ Hd). }
    { eapply Forall_impl; [exact Hfail|]. simpl.
      intros wd' (k' & Hk' & Ho'). exists k'. split; [done|].
      by rewrite (data_only_view _ _ _ _ _ Hd). }
    simpl. exists h2, (sent_after s ++ sent2). split; [done|].
    rewrite times_sent_app.
    assert (1 ≤ times_sent (OnErrChan err) (sent_after s))%nat; [|lia].
    apply times_sent_elem_of, sent_after_error.
    destruct (h !! p) as [f|] eqn:Hp; [|done].
    by apply (scan_error_sent _ _ k _ _ _ p f err Hs Hk Hp).
Qed.

Lemma broken_file_errors_every_tick_witness :
  ∃ h' sent,
    run [constWorld fs_empty; constWorld fs_empty; constWorld fs_empty]
      watch_a heap_a = Some (h', sent) ∧
    (length [constWorld fs_empty; constWorld fs_empty; constWorld fs_empty]
     ≤ times_sent (OnErrChan (PathError "open" "a.txt" ENOENT)) sent)%nat.
Proof.
  apply (broken_file_errors_every_tick
           [constWorld fs_empty; constWorld fs_empty; constWorld fs_empty]
           watch_a heap_a 0%nat).
  - repeat constructor. by eexists.
  - repeat constructor; by exists 0%nat.
Defined.

(** ** Further properties: tags and the registry *)

Lemma SetTag_retag (h : gmap ptr File) (f : ptr) (t : string) :
  SetTag h f t = (λ _, retag f t h) <$> h !! f.
Proof.
  unfold SetTag, retag. destruct (h !! f) as [file|] eqn:Hf; simpl; [|done].
  f_equal. apply map_eq. intros q. destruct (decide (f = q)) as [<-|Hne].
  - by rewrite lookup_insert_eq, lookup_alter_eq, Hf.
  - by rewrite lookup_insert_ne, lookup_alter_ne.
Qed.

Lemma scanFile_retag (fs : FS) (p f : ptr) (t : string) (s : Scan) :
  scanFile fs p (retag_scan f t s) = retag_scan f t <$> scanFile fs p s.
Proof.
  unfold scanFile, retag_scan, retag. simpl.
  destruct (decide (f = p)) as [->|Hne].
  - rewrite lookup_alter_eq. destruct (sc_heap s !! p) as [file|]; simpl;
      [|done].
    destruct (os_Open fs (fileName file)); [done|].
    destruct (reader file) as [rd|]; simpl; [|done].
    destruct (rd _) as [data [err|]]; [done|].
    destruct (negb _); simpl; [|done].
    do 2 f_equal. by rewrite insert_alter_eq, alter_insert_eq.
  - rewrite lookup_alter_ne by done.
    destruct (sc_heap s !! p) as [file|]; simpl; [|done].
    destruct (os_Open fs (fileName file)); [done|].
    destruct (reader file) as [rd|]; simpl; [|done].
    destruct (rd _) as [data [err|]]; [done|].
    destruct (negb _); simpl; [|done].
    do 2 f_equal. by rewrite alter_insert_ne.
Qed.

Lemma scan_retag (wd : World) (i : nat) (fl : list ptr) (f : ptr) (t : string)
    (s : Scan) :
  scan wd i fl (retag_scan f t s) = retag_scan f t <$> scan wd i fl s.
Proof.
  revert i s. induction fl as [|p fl IH]; intros i s; simpl; [done|].
  rewrite scanFile_retag.
  destruct (scanFile (wd i) p s) as [s1|]; simpl; [|done]. apply IH.
Qed.

(** X11.  Tags play no part in scanning.  Setting the tag of a descriptor
    and then running a pass sends what the pass sends without the tag, and
    leaves the heap that setting the tag after the pass leaves; either both
    orders panic or neither does. *)
Theorem SetTag_publishChanges_commute (wd : World) (w : Watchman)
    (h : gmap ptr File) (f : ptr) (t : string) :
  SetTag h f t ≫= publishChanges wd w =
    '(h', sent) ← publishChanges wd w h;
    h'' ← SetTag h' f t; Some (h'', sent).
Proof.
  rewrite SetTag_retag, publishChanges_scan.
  destruct (h !! f) as [file|] eqn:Hf; simpl.
  - rewrite publishChanges_scan.
    change (scan_start (retag f t h)) with (retag_scan f t (scan_start h)).
    rewrite scan_retag.
    destruct (scan wd 0 (files w) (scan_start h)) as [s|] eqn:Hs; simpl;
      [|done].
    rewrite SetTag_retag.
    destruct (scan_heap _ _ _ f _ _ _ Hs Hf) as [d ->]. done.
  - destruct (scan wd 0 (files w) (scan_start h)) as [s|] eqn:Hs; simpl;
      [|done].
    rewrite SetTag_retag. by rewrite (scan_dom _ _ _ _ _ f Hs Hf).
Qed.

(** X12.  In a registry without repetition [RemoveFile] unregisters: the
    pointer is no longer in the registry, the registry is still well formed
    and without repetition, and from then on the scan loop neither reports
    the descriptor nor writes to it. *)
Theorem RemoveFile_unregisters (w : Watchman) (h : gmap ptr File) (p : ptr)
    (ticks : list World) :
  NoDup (files w) → registry_ok h (files w) →
  (p ∉ files (RemoveFile w p)) ∧
  NoDup (files (RemoveFile w p)) ∧
  registry_ok h (files (RemoveFile w p)) ∧
  ∃ h' sent, run ticks (RemoveFile w p) h = Some (h', sent) ∧
    ¬ reported p sent ∧ h' !! p = h !! p.
Proof.
  intros Hnd Hok.
  assert ((p ∉ files (RemoveFile w p)) ∧ NoDup (files (RemoveFile w p)) ∧
          registry_ok h (files (RemoveFile w p))) as (Hout & Hnd' & Hok').
  { destruct (decide (p ∈ files w)) as [Hin|Hnotin].
    - pose proof (RemoveFile_perm w p Hin) as Hperm.
      unfold registry_ok in *. rewrite Hperm in Hnd, Hok.
      apply NoDup_cons in Hnd as [? ?]. apply Forall_cons in Hok as [_ ?].
      done.
    - by rewrite RemoveFile_absent. }
  repeat (split; [done|]).
  destruct (run_data_only ticks (RemoveFile w p) h Hok')
    as (h' & sent & Hrun & Hd & Hreg).
  exists h', sent. split; [done|]. split.
  - intros Hrep. by apply Hout, Hreg.
  - specialize (Hd p). destruct (h !! p) as [f|]; [|done].
    destruct Hd as (d & -> & Hsame). rewrite (Hsame Hout).
    by rewrite set_fileData_same.
Qed.

Lemma RemoveFile_unregisters_witness :
  (0%nat ∉ files (RemoveFile watch_ba 0%nat)) ∧
  NoDup (files (RemoveFile watch_ba 0%nat)) ∧
  registry_ok heap_ab (files (RemoveFile watch_ba 0%nat)) ∧
  ∃ h' sent,
    run [constWorld (fs_with "a.txt" "v2")] (RemoveFile watch_ba 0%nat) heap_ab
      = Some (h', sent) ∧
    ¬ reported 0%nat sent ∧ h' !! 0%nat = heap_ab !! 0%nat.
Proof.
  apply (RemoveFile_unregisters watch_ba heap_ab 0%nat
           [constWorld (fs_with "a.txt" "v2")]).
  - apply NoDup_cons. split.
    + intros [?|?%elem_of_nil]%elem_of_cons; done.
    + apply NoDup_singleton.
  - repeat constructor; by eexists.
Defined.

(** X13.  Adding a pointer and removing it at once gives back the registry
    as it was, slot for slot, whether or not the pointer was registered
    before. *)
Theorem AddFile_RemoveFile (w : Watchman) (file : ptr) :
  snd (AddFile w file) = None ∧
  RemoveFile (fst (AddFile w file)) file = w.
Proof.
  split; [done|].
  assert (files (RemoveFile (fst (AddFile w file)) file) = files w) as Hfiles.
  { destruct (decide (file ∈ files w)) as [Hin|Hnotin].
    - apply list_elem_of_split_l in Hin as (l1 & l2 & Hw & Hout).
      rewrite (RemoveFile_shape _ l1 (l2 ++ [file]) file).
      + unfold swap_removed. by rewrite last_snoc, removelast_last, Hw.
      + simpl. rewrite Hw. by rewrite <- app_assoc.
      + done.
    - by rewrite (RemoveFile_shape _ (files w) [] file). }
  destruct w as [fl pi]. unfold RemoveFile in *. simpl in *. by rewrite Hfiles.
Qed.

Lemma List_filter_sublist {A} (g : A → bool) (l : list A) :
  List.filter g l `sublist_of` l.
Proof.
  induction l as [|x l IH]; simpl; [done|].
  destruct (g x); [by apply sublist_skip|by apply sublist_cons].
Qed.

Lemma List_filter_perm {A} (g : A → bool) (l k : list A) :
  l ≡ₚ k → List.filter g l ≡ₚ List.filter g k.
Proof.
  induction 1 as [|x l k _ IH|x y l|l1 l2 l3 _ IH1 _ IH2]; simpl.
  - done.
  - destruct (g x); by rewrite IH.
  - destruct (g x), (g y); try done. apply perm_swap.
  - by rewrite IH1.
Qed.

(** X14.  [Find] returns the registered pointers that pass the filter, in
    the order of the registry.  After [AddFile] the new pointer comes last
    in it, if it passes; after [RemoveFile] of a registered pointer the
    result holds one occurrence of that pointer less, if it passes, and the
    same other pointers. *)
Theorem Find_registry (w : Watchman) (h : gmap ptr File) (flt : FileFilter)
    (file : ptr) :
  (∀ p, p ∈ Find w h flt ↔ p ∈ files w ∧ flt h p = true) ∧
  Find w h flt `sublist_of` files w ∧
  Find (fst (AddFile w file)) h flt
    = Find w h flt ++ (if flt h file then [file] else []) ∧
  (file ∈ files w →
   Find w h flt
     ≡ₚ (if flt h file then [file] else []) ++ Find (RemoveFile w file) h flt).
Proof.
  unfold Find. split.
  { intros p. rewrite !list_elem_of_In. apply filter_In. }
  split; [apply List_filter_sublist|]. split.
  { simpl. rewrite List.filter_app. simpl. by destruct (flt h file). }
  intros Hin%RemoveFile_perm.
  rewrite (List_filter_perm _ _ _ Hin). simpl. by destruct (flt h file).
Qed.

Lemma Find_registry_witness :
  Find watch_ba heap_ab (λ _ _, true)
    ≡ₚ [1%nat] ++ Find (RemoveFile watch_ba 1%nat) heap_ab (λ _ _, true).
Proof.
  apply (proj2 (proj2 (proj2
           (Find_registry watch_ba heap_ab (λ _ _, true) 1%nat)))).
  by left.
Defined.

(** ** Further properties: the two readers *)

Lemma publishChanges_reads (wd : World) (w : Watchman) (h : gmap ptr File)
    (p : ptr) (f : File) (d : FileData) :
  registry_ok h (files w) → p ∈ files w → h !! p = Some f →
  visits_read wd (files w) p f d →
  ∃ h' sent, publishChanges wd w h = Some (h', sent) ∧
    (reported p sent ↔ d ≠ fileData f) ∧
    h' !! p = Some (set_fileData f d).
Proof.
  intros Hok Hin Hp Hread.
  destruct (publishChanges_total wd w h Hok) as (s & Hs & Hpub).
  exists (sc_heap s), (sent_after s). split; [done|].
  split; [|by apply (scan_reads_stored _ _ _ _ _ p f d Hs Hp Hread Hin)].
  rewrite (sent_after_reported _ _ _ _ p Hs). split.
  - intros Hrep ->.
    destruct (scan_quiet _ _ _ _ _ p f Hs Hp) as [_ Hev].
    { intros k Hk d' Hd'. simpl in Hd'. rewrite (Hread k Hk) in Hd'.
      congruence. }
    apply Hev in Hrep. by apply elem_of_nil in Hrep.
  - intros Hd. apply list_elem_of_lookup_1 in Hin as [k Hk].
    by apply (scan_change_reported _ _ k _ _ _ _ f d Hs Hk Hp (Hread k Hk)).
Qed.

(** X15.  With [ReadFile] a descriptor is compared byte for byte: a pass
    that finds the bytes [c] in the file reports the descriptor exactly when
    [c] is not the stored snapshot, and [c] is the stored snapshot after the
    pass. *)
Theorem ReadFile_reports_byte_changes (wd : World) (w : Watchman)
    (h : gmap ptr File) (p : ptr) (f : File) (c : list Byte.byte) :
  registry_ok h (files w) → p ∈ files w → h !! p = Some f →
  reader f = Some ReadFile →
  (∀ k, files w !! k = Some p →
        fs_open (wd k) (fileName f) = inr (mk_os_File c None)) →
  ∃ h' sent, publishChanges wd w h = Some (h', sent) ∧
    (reported p sent ↔ c ≠ fileData f) ∧
    h' !! p = Some (set_fileData f c).
Proof.
  intros Hok Hin Hp Hrd Hopen.
  apply (publishChanges_reads wd w h p f c Hok Hin Hp).
  intros k Hk. unfold observe, os_Open. by rewrite (Hopen k Hk), Hrd.
Qed.

Lemma ReadFile_reports_byte_changes_witness :
  ∃ h' sent,
    publishChanges (constWorld (fs_with "a.txt" "v2")) watch_a heap_a
      = Some (h', sent) ∧
    (reported 0%nat sent ↔ bytes_of "v2" ≠ fileData (file_a "v1")) ∧
    h' !! 0%nat = Some (set_fileData (file_a "v1") (bytes_of "v2")).
Proof.
  apply (ReadFile_reports_byte_changes (constWorld (fs_with "a.txt" "v2"))
           watch_a heap_a 0%nat (file_a "v1") (bytes_of "v2")).
  - repeat constructor. by eexists.
  - by left.
  - reflexivity.
  - reflexivity.
  - intros k Hk. reflexivity.
Defined.

(** X16.  With [MD5Checksum] a descriptor is compared by digest: a pass
    that finds the bytes [c] in the file reports the descriptor exactly when
    the digest of [c] is not the stored snapshot, whatever the length of
    [c], and the digest of [c] is the stored snapshot after the pass.  A
    read that fails has its error sent, and the descriptor is neither
    reported nor written. *)
Theorem MD5Checksum_reports_digest_changes
    (md5_Sum : list Byte.byte → list Byte.byte) (wd : World) (w : Watchman)
    (h : gmap ptr File) (p : ptr) (f : File) (c : list Byte.byte)
    (rerr : option error) :
  registry_ok h (files w) → p ∈ files w → h !! p = Some f →
  reader f = Some (MD5Checksum md5_Sum) →
  (∀ k, files w !! k = Some p →
        fs_open (wd k) (fileName f) = inr (mk_os_File c rerr)) →
  ∃ h' sent, publishChanges wd w h = Some (h', sent) ∧
    match rerr with
    | None =>
        (reported p sent ↔ md5_Sum c ≠ fileData f) ∧
        h' !! p = Some (set_fileData f (md5_Sum c))
    | Some err =>
        OnErrChan err ∈ sent ∧ ¬ reported p sent ∧ h' !! p = Some f
    end.
Proof.
  intros Hok Hin Hp Hrd Hopen. destruct rerr as [err|].
  - destruct (publishChanges_total wd w h Hok) as (s & Hs & Hpub).
    exists (sc_heap s), (sent_after s). split; [done|].
    assert (∀ k, files w !! k = Some p →
                 observe (wd k) f = Some (Failed err)) as Hfail.
    { intros k Hk. unfold observe, os_Open. by rewrite (Hopen k Hk), Hrd. }
    split.
    { apply list_elem_of_lookup_1 in Hin as [k Hk]. apply sent_after_error.
      by apply (scan_error_sent _ _ k _ _ _ p f err Hs Hk Hp (Hfail k Hk)). }
    destruct (scan_quiet _ _ _ _ _ p f Hs Hp) as [Hp' Hev].
    { intros k Hk d Hd. simpl in Hd. rewrite (Hfail k Hk) in Hd. done. }
    split; [|done]. rewrite (sent_after_reported _ _ _ _ p Hs).
    intros Hrep%Hev. by apply elem_of_nil in Hrep.
  - apply (publishChanges_reads wd w h p f (md5_Sum c) Hok Hin Hp).
    intros k Hk. unfold observe, os_Open. by rewrite (Hopen k Hk), Hrd.
Qed.

Lemma MD5Checksum_reports_digest_changes_witness :
  ∃ h' sent,
    publishChanges (constWorld (fs_with "a.txt" "w1")) watch_a heap_digest
      = Some (h', sent) ∧
    (reported 0%nat sent
       ↔ sum16 (bytes_of "w1") ≠ fileData (file_digest "v1")) ∧
    h' !! 0%nat
      = Some (set_fileData (file_digest "v1") (sum16 (bytes_of "w1"))).
Proof.
  apply (MD5Checksum_reports_digest_changes sum16
           (constWorld (fs_with "a.txt" "w1")) watch_a heap_digest 0%nat
           (file_digest "v1") (bytes_of "w1") None).
  - repeat constructor. by eexists.
  - by left.
  - reflexivity.
  - reflexivity.
  - intros k Hk. reflexivity.
Defined.
